(** * Verification of the transactional core of silo (txn.h)

    A shallow embedding of [transaction::logical_node] (the per-key
    multi-version record with its packed header word) and of the
    per-transaction bookkeeping ([key_range_t], the absent range set, the
    local read/write sets), together with the properties stated about them.

    Conventions.
    - [uint64_t] and [size_t] values are integers of [Z] in [0, 2^64); every
      operation that can leave that interval in C++ is wrapped explicitly
      ([wrap64]).
    - The arrays [versions] and [values] are lists of length [NVersions].
    - [INVARIANT(e)] aborts the operation when [e] is false: operations
      return a [result].
    - [COMPILER_MEMORY_FENCE] has no sequential meaning and is dropped. *)

From Stdlib Require Import ZArith List Bool Lia.
From Stdlib Require Import Strings.String Strings.Ascii.
From Stdlib Require Import OrderedType OrderedTypeEx.
From stdpp Require Import gmap strings list fin_maps.

Local Open Scope Z_scope.

(* ===================================================================== *)
(** ** Machine words *)
(* ===================================================================== *)

Module U64.

Definition modulus : Z := 2 ^ 64.

Definition in_range (z : Z) : Prop := 0 <= z < modulus.

Definition wrap64 (z : Z) : Z := z mod modulus.

(** [~x] on a 64-bit word. *)
Definition not64 (x : Z) : Z := wrap64 (Z.lnot x).

(** [x << k] on a 64-bit word. *)
Definition shl64 (x k : Z) : Z := wrap64 (Z.shiftl x k).

(** [x + y] on a 64-bit word. *)
Definition add64 (x y : Z) : Z := wrap64 (x + y).

End U64.

Import U64.

(* ===================================================================== *)
(** ** Invariant checks *)
(* ===================================================================== *)

Inductive result (A : Type) : Type :=
| Ok (a : A)
| InvariantViolation.

Arguments Ok {A} a.
Arguments InvariantViolation {A}.

Definition bind {A B : Type} (m : result A) (k : A -> result B) : result B :=
  match m with
  | Ok a => k a
  | InvariantViolation => InvariantViolation
  end.

Notation "x <- m ;; k" := (bind m (fun x => k))
  (at level 100, m at next level, right associativity).
Notation "m ;;; k" := (bind m (fun _ => k))
  (at level 100, right associativity).

(** Modelled from the spec: the macro [INVARIANT] of macros.h. A false
    invariant is a fatal violation that ends the operation; a true one has
    no effect. *)
Definition INVARIANT (e : bool) : result unit :=
  if e then Ok tt else InvariantViolation.

(* ===================================================================== *)
(** ** transaction::logical_node *)
(* ===================================================================== *)

(** [tid_t] is [uint64_t]; [record_t] is a pointer [uint8_t*], kept as its
    address, with [NULL] the address 0. *)
Abbreviation tid_t := Z.
Abbreviation record_t := Z.

Definition MIN_TID : tid_t := 0.
Definition NULL : record_t := 0.

Definition HDR_LOCKED_MASK : Z := 0x1.

Definition HDR_SIZE_SHIFT : Z := 1.
Definition HDR_SIZE_MASK : Z := Z.shiftl 0xf HDR_SIZE_SHIFT.

Definition HDR_VERSION_SHIFT : Z := 5.
Definition HDR_VERSION_MASK : Z := shl64 (wrap64 (-1)) HDR_VERSION_SHIFT.

Definition NVersions : nat := 15.

Record logical_node : Type := mk_logical_node {
  hdr : Z;
  versions : list tid_t;
  values : list record_t
}.

(** Array read [a[i]]. Every index read below is smaller than [NVersions]
    once the invariant checks have passed, so the default is never used on a
    node whose arrays have [NVersions] slots. *)
Definition at_ (a : list Z) (i : nat) : Z := nth i a 0.

Definition set_hdr (ln : logical_node) (h : Z) : logical_node :=
  mk_logical_node h (versions ln) (values ln).

Definition set_slot (ln : logical_node) (i : nat) (t : tid_t) (r : record_t)
  : logical_node :=
  mk_logical_node (hdr ln) (<[i := t]> (versions ln)) (<[i := r]> (values ln)).

Definition IsLocked (v : Z) : bool := negb (Z.land v HDR_LOCKED_MASK =? 0).

Definition is_locked (ln : logical_node) : bool := IsLocked (hdr ln).

Definition Version (v : Z) : Z :=
  Z.shiftr (Z.land v HDR_VERSION_MASK) HDR_VERSION_SHIFT.

Definition Size (v : Z) : Z :=
  Z.shiftr (Z.land v HDR_SIZE_MASK) HDR_SIZE_SHIFT.

Definition size (ln : logical_node) : nat := Z.to_nat (Size (hdr ln)).

(** [lock()] seen by a single thread: the compare-and-swap succeeds on an
    unlocked header; on a locked one the loop spins for ever ([None]). *)
Definition lock (ln : logical_node) : option logical_node :=
  if IsLocked (hdr ln) then None
  else Some (set_hdr ln (Z.lor (hdr ln) HDR_LOCKED_MASK)).

Definition unlock (ln : logical_node) : result logical_node :=
  let v := hdr ln in
  INVARIANT (IsLocked v) ;;;
  let n := Version v in
  let v := Z.land v (not64 HDR_VERSION_MASK) in
  let v := Z.lor v (Z.land (shl64 (add64 n 1) HDR_VERSION_SHIFT) HDR_VERSION_MASK) in
  let v := Z.land v (not64 HDR_LOCKED_MASK) in
  INVARIANT (negb (IsLocked v)) ;;;
  Ok (set_hdr ln v).

Definition set_size (ln : logical_node) (n : nat) : result logical_node :=
  INVARIANT (n <=? NVersions)%nat ;;;
  let h := Z.land (hdr ln) (not64 HDR_SIZE_MASK) in
  let h := Z.lor h (shl64 (Z.of_nat n) HDR_SIZE_SHIFT) in
  Ok (set_hdr ln h).

(** The constructor. The slots it does not assign keep whatever the
    allocated memory held: [vs0] and [rs0], [NVersions] words each. *)
Definition logical_node_new (vs0 : list tid_t) (rs0 : list record_t)
  : result logical_node :=
  ln <- set_size (mk_logical_node 0 vs0 rs0) 1 ;;
  Ok (set_slot ln 0 MIN_TID NULL).

(** The loop of [record_at]: [k] is [i + 1] for the signed index [i] that
    runs from [n - 1] down to 0. *)
Fixpoint record_at_loop (ln : logical_node) (t : tid_t) (k : nat)
  : option (tid_t * record_t) :=
  match k with
  | O => None
  | S i =>
      if at_ (versions ln) i <=? t
      then Some (at_ (versions ln) i, at_ (values ln) i)
      else record_at_loop ln t i
  end.

(** [record_at(t, start_t, r)]: [Some (start_t, r)] when it returns true,
    [None] when it returns false. *)
Definition record_at (ln : logical_node) (t : tid_t)
  : result (option (tid_t * record_t)) :=
  let n := size ln in
  INVARIANT ((0 <? n)%nat && (n <=? NVersions)%nat) ;;;
  Ok (record_at_loop ln t n).

Definition is_latest_version (ln : logical_node) (t : tid_t) : result bool :=
  let n := size ln in
  INVARIANT ((0 <? n)%nat && (n <=? NVersions)%nat) ;;;
  Ok (at_ (versions ln) (n - 1) <=? t).

(** The slow path of [is_snapshot_consistent]: [k] is [i + 1] for the
    signed index [i] that runs from [n - 2] down to 0. *)
Fixpoint snapshot_slow_path (ln : logical_node) (snapshot_tid commit_tid : tid_t)
  (k : nat) : result bool :=
  match k with
  | O => Ok false
  | S i =>
      if at_ (versions ln) i <=? snapshot_tid
      then
        INVARIANT (negb (at_ (versions ln) (i + 1) =? commit_tid)) ;;;
        Ok (commit_tid <? at_ (versions ln) (i + 1))
      else snapshot_slow_path ln snapshot_tid commit_tid i
  end.

Definition is_snapshot_consistent (ln : logical_node)
  (snapshot_tid commit_tid : tid_t) : result bool :=
  let n := size ln in
  INVARIANT ((0 <? n)%nat && (n <=? NVersions)%nat) ;;;
  if at_ (versions ln) (n - 1) <=? snapshot_tid then Ok true
  else snapshot_slow_path ln snapshot_tid commit_tid (n - 1).

(** The eviction loop of [write_record_at], [for (i = 0; i < NVersions - 1;
    i++)]: [k] iterations remain and the next one is at index [i]. *)
Fixpoint shift_down (ln : logical_node) (i k : nat) : logical_node :=
  match k with
  | O => ln
  | S k' =>
      shift_down
        (set_slot ln i (at_ (versions ln) (i + 1)) (at_ (values ln) (i + 1)))
        (i + 1) k'
  end.

Definition write_record_at (ln : logical_node) (t : tid_t) (r : record_t)
  : result logical_node :=
  INVARIANT (is_locked ln) ;;;
  let n := size ln in
  INVARIANT ((0 <? n)%nat && (n <=? NVersions)%nat) ;;;
  INVARIANT (at_ (versions ln) (n - 1) <? t) ;;;
  if (n =? NVersions)%nat then
    let ln := shift_down ln 0 (NVersions - 1) in
    Ok (set_slot ln (NVersions - 1) t r)
  else
    let ln := set_slot ln n t r in
    set_size ln (n + 1).

(* ===================================================================== *)
(** ** Auxiliary definitions of the statements *)
(* ===================================================================== *)

(** The header word [unlock] stores, as a function of the one it reads. *)
Definition unlock_word (v : Z) : Z :=
  Z.land
    (Z.lor (Z.land v (not64 HDR_VERSION_MASK))
       (Z.land (shl64 (add64 (Version v) 1) HDR_VERSION_SHIFT) HDR_VERSION_MASK))
    (not64 HDR_LOCKED_MASK).

(** The header word [set_size(n)] stores. *)
Definition set_size_word (h : Z) (n : nat) : Z :=
  Z.lor (Z.land h (not64 HDR_SIZE_MASK)) (shl64 (Z.of_nat n) HDR_SIZE_SHIFT).

(** The retained timestamps, slots 0 to [size - 1], strictly increase. *)
Definition strictly_increasing (ln : logical_node) : Prop :=
  forall i j : nat, (i < j < size ln)%nat ->
    at_ (versions ln) i < at_ (versions ln) j.

(** Both arrays have their [NVersions] slots. *)
Definition array_shape (ln : logical_node) : Prop :=
  length (versions ln) = NVersions /\ length (values ln) = NVersions.

(** The executable form of [strictly_increasing]: each retained timestamp
    is below the next one. *)
Definition strictly_increasingb (ln : logical_node) : bool :=
  forallb (fun i : nat => at_ (versions ln) i <? at_ (versions ln) (i + 1))
    (seq 0 (size ln - 1)).

(** A locked node that retains the versions (0, 0), (5, 41) and (10, 42). *)
Definition sample_node : logical_node :=
  mk_logical_node 7 (0 :: 5 :: 10 :: replicate 12 0) (0 :: 41 :: 42 :: replicate 12 0).

(** The same chain in a node that nobody has locked. *)
Definition unlocked_node : logical_node :=
  mk_logical_node 6 (versions sample_node) (values sample_node).

(** A locked node whose chain is full: versions (0, 100) to (14, 114), and
    a stamp of 2^59 - 1, the largest one. *)
Definition full_node : logical_node :=
  mk_logical_node (2 ^ 64 - 1)
    (map Z.of_nat (seq 0 15)) (map Z.of_nat (seq 100 15)).

(* ===================================================================== *)
(** ** Keys *)
(* ===================================================================== *)

(** Modelled from the spec: [key_type] is [varkey] (varkey.h), an opaque
    totally ordered byte sequence. It is kept as the string of its bytes,
    ordered as [std::string] is: byte by byte, a proper prefix first.
    [varkey(k)] and [string(k.data(), k.size())] are then the identity. *)
Abbreviation key_type := string.

Definition key_lt (x y : string) : bool := String.ltb x y.
Definition key_le (x y : string) : bool := String.leb x y.

(** The order itself, as a relation: [key_before x y] when [x] is a proper
    prefix of [y], or the two differ first at a byte that is smaller in
    [x]. *)
Definition key_before (x y : string) : Prop := String_as_OT.lt x y.
Definition key_upto (x y : string) : Prop := x = y \/ key_before x y.

(* ===================================================================== *)
(** ** transaction::key_range_t *)
(* ===================================================================== *)

(** The range [a, b), or [a, +inf) when [has_b] is false. *)
Module key_range_t.

Record t : Type := mk {
  a : string;
  has_b : bool;
  b : string
}.

(** [has_b && a >= b] *)
Definition is_empty_range (this : t) : bool :=
  has_b this && key_le (b this) (a this).

Definition contains (this that : t) : bool :=
  if key_lt (a that) (a this) then false
  else if negb (has_b this) then true
  else if negb (has_b that) then false
  else key_le (b that) (b this).

Definition key_in_range (this : t) (k : key_type) : bool :=
  key_le (a this) k && (negb (has_b this) || key_lt k (b this)).

End key_range_t.

Abbreviation key_range_t := key_range_t.t.

Definition key_range_search_less_cmp (k : key_type) (range : key_range_t)
  : bool :=
  negb (key_range_t.has_b range) || key_lt k (key_range_t.b range).

(* ===================================================================== *)
(** ** The absent range set *)
(* ===================================================================== *)

(** [std::upper_bound(first, last, value, comp)] of the C++ standard
    library: the binary search over the half-open index interval that
    starts at [first] and has [count] elements. [fuel] bounds the number of
    iterations; [count] iterations always suffice, because [count] shrinks
    at each one. *)
Fixpoint upper_bound_loop (comp : key_type -> key_range_t -> bool)
  (l : list key_range_t) (value : key_type) (fuel first count : nat) : nat :=
  match fuel with
  | O => first
  | S fuel' =>
      if (count =? 0)%nat then first
      else
        let step := (count / 2)%nat in
        let it := (first + step)%nat in
        match l !! it with
        | Some x =>
            if negb (comp value x)
            then upper_bound_loop comp l value fuel' (it + 1)%nat
                   (count - (step + 1))%nat
            else upper_bound_loop comp l value fuel' first step
        | None => first
        end
  end.

Definition upper_bound (comp : key_type -> key_range_t -> bool)
  (l : list key_range_t) (value : key_type) : nat :=
  upper_bound_loop comp l value (length l) 0 (length l).

(** Modelled from the spec: [transaction::key_in_absent_set], declared in
    txn.h and defined outside it. The spec has it binary search the set with
    the comparator [key_range_search_less_cmp]; by the note above that
    comparator in txn.h the search is [upper_bound], whose answer is the
    first range with upper bound above [k], with no promise on its lower
    bound: the key is in the set when that range exists and holds it. *)
Definition key_in_absent_set (absent_range_set : list key_range_t)
  (k : key_type) : bool :=
  match absent_range_set !! upper_bound key_range_search_less_cmp absent_range_set k with
  | None => false
  | Some range => key_range_t.key_in_range range k
  end.

Definition key_min (x y : string) : string := if key_le x y then x else y.
Definition key_max (x y : string) : string := if key_le x y then y else x.

(** The smallest range that covers both [x] and [y]. *)
Definition merge_ranges (x y : key_range_t) : key_range_t :=
  key_range_t.mk
    (key_min (key_range_t.a x) (key_range_t.a y))
    (key_range_t.has_b x && key_range_t.has_b y)
    (key_max (key_range_t.b x) (key_range_t.b y)).

(** [x] ends strictly before [y] starts: the two neither overlap nor
    touch. *)
Definition ends_before (x y : key_range_t) : bool :=
  key_range_t.has_b x && key_lt (key_range_t.b x) (key_range_t.a y).

(** Insertion of a non-empty range in a sorted set of disjoint ranges. The
    ranges that end before it are kept; when an existing range contains it
    nothing changes; otherwise it absorbs every range it overlaps or
    touches and is placed before the first range that starts after its
    end. *)
Fixpoint insert_range (range : key_range_t) (l : list key_range_t)
  : list key_range_t :=
  match l with
  | [] => [range]
  | x :: l' =>
      if ends_before x range then x :: insert_range range l'
      else if key_range_t.contains x range then x :: l'
      else if ends_before range x then range :: x :: l'
      else insert_range (merge_ranges range x) l'
  end.

(** Modelled from the spec: [transaction::add_absent_range], declared in
    txn.h and defined outside it. The spec has it insert the interval in
    [absent_range_set], merging with or being contained by existing ranges,
    and keep the set sorted and disjoint. An empty range ([is_empty_range])
    holds no key and is not inserted. *)
Definition add_absent_range (absent_range_set : list key_range_t)
  (range : key_range_t) : list key_range_t :=
  if key_range_t.is_empty_range range then absent_range_set
  else insert_range range absent_range_set.

(** Modelled from the spec: [transaction::AssertValidRangeSet], declared in
    txn.h and defined outside it. The spec has it check that ranges are
    sorted and disjoint: no range is empty, and each range but the last is
    bounded and ends no later than the next one starts. *)
Fixpoint valid_range_set (l : list key_range_t) : bool :=
  match l with
  | [] => true
  | x :: l' =>
      negb (key_range_t.is_empty_range x)
      && match l' with
         | [] => true
         | y :: _ =>
             key_range_t.has_b x
             && key_le (key_range_t.b x) (key_range_t.a y)
         end
      && valid_range_set l'
  end.

(** The invariant of the absent range set: no range is empty, and each
    range ends strictly before every later one starts. *)
Fixpoint range_set_inv (l : list key_range_t) : Prop :=
  match l with
  | [] => True
  | x :: l' =>
      key_range_t.is_empty_range x = false
      /\ Forall (fun y => ends_before x y = true) l'
      /\ range_set_inv l'
  end.

(** Some range of [l] holds the key [k]. *)
Definition covers (l : list key_range_t) (k : key_type) : Prop :=
  exists x : key_range_t, x ∈ l /\ key_range_t.key_in_range x k = true.

(* ===================================================================== *)
(** ** transaction *)
(* ===================================================================== *)

Module read_record_t.

(** [ln] is the address of the logical node the record was read from. *)
Record t : Type := mk {
  t_ : tid_t;
  r : record_t;
  ln : Z
}.

End read_record_t.

Abbreviation read_record_t := read_record_t.t.

Module transaction.

Record t : Type := mk {
  snapshot_tid : tid_t;
  resolved : bool;
  btree : Z;
  read_set : gmap string read_record_t;
  write_set : gmap string record_t;
  absent_range_set : list key_range_t
}.

(** Modelled from the spec: [transaction::local_search_str], declared in
    txn.h and defined outside it. The spec has the search consult
    [write_set] first and, when the key is absent there, [read_set]; it
    finds nothing when neither holds the key. [Some v] stands for the
    return value true with [v] stored in the out-parameter. *)
Definition local_search_str (this : t) (k : string) : option record_t :=
  match write_set this !! k with
  | Some v => Some v
  | None =>
      match read_set this !! k with
      | Some rr => Some (read_record_t.r rr)
      | None => None
      end
  end.

Definition local_search (this : t) (k : key_type) : option record_t :=
  let sk : string := k in
  local_search_str this sk.

End transaction.

(* ===================================================================== *)
(** ** Further operations *)
(* ===================================================================== *)

(** [check_version(version)], with nobody else writing. *)
Definition check_version (ln : logical_node) (version : Z) : bool :=
  hdr ln =? version.

(** The constructors of [key_range_t]: [key_range_t()], the range without
    upper bound [key_range_t(a)] and the bounded range [key_range_t(a, b)].
    A key given as [varkey] is copied to a string first. *)
Definition key_range_default : key_range_t := key_range_t.mk "" true "".
Definition key_range_from (a : string) : key_range_t := key_range_t.mk a false "".
Definition key_range_between (a b : string) : key_range_t := key_range_t.mk a true b.

(* ===================================================================== *)
(** ** Readers that run beside writers *)
(* ===================================================================== *)

(** What the writers do to a node between two instants, in any number of
    atomic steps: the compare-and-swap of [lock], a store made while the
    lock is held (to a slot of the arrays or to the count field of the
    header, as [write_record_at] and [set_size] do), and the store of
    [unlock]. The index counts the [unlock]s. *)
Inductive writer_steps : nat -> logical_node -> logical_node -> Prop :=
| steps_refl (ln : logical_node) :
    writer_steps 0 ln ln
| steps_lock (n : nat) (ln ln1 ln2 : logical_node) :
    writer_steps n ln ln1 ->
    lock ln1 = Some ln2 ->
    writer_steps n ln ln2
| steps_store (n : nat) (ln ln1 ln2 : logical_node) :
    writer_steps n ln ln1 ->
    is_locked ln1 = true ->
    is_locked ln2 = true ->
    Version (hdr ln2) = Version (hdr ln1) ->
    in_range (hdr ln2) ->
    writer_steps n ln ln2
| steps_unlock (n : nat) (ln ln1 ln2 : logical_node) :
    writer_steps n ln ln1 ->
    unlock ln1 = Ok ln2 ->
    writer_steps (S n) ln ln2.

Module Shared.

(** The node as the instants pass: a reader's [k]-th access to the shared
    node sees the node of instant [k]. *)
Definition memory : Type := nat -> logical_node.

(** The writers follow the locking protocol: [epoch] counts the [unlock]s
    completed so far. *)
Definition history (mem : memory) (epoch : nat -> nat) : Prop :=
  in_range (hdr (mem 0%nat))
  /\ forall tau : nat,
       (epoch tau <= epoch (S tau))%nat
       /\ writer_steps (epoch (S tau) - epoch tau) (mem tau) (mem (S tau)).

(** The operations below take the instant of their first access and return
    their result with the instant that follows their last access. A loop
    that waits for another thread gets [fuel], the number of iterations it
    may run: [None] when it is used up. *)

Fixpoint stable_version (mem : memory) (fuel tau : nat) : option (Z * nat) :=
  match fuel with
  | O => None
  | S fuel' =>
      let v := hdr (mem tau) in
      if IsLocked v then stable_version mem fuel' (S tau)
      else Some (v, S tau)
  end.

Definition check_version (mem : memory) (version : Z) (tau : nat) : bool * nat :=
  (hdr (mem tau) =? version, S tau).

(** The accesses of [record_at] in program order: [versions[i]] for the
    test and, on a hit, [versions[i]] again and [values[i]]. *)
Fixpoint record_at_loop (mem : memory) (t : tid_t) (k tau : nat)
  : option (tid_t * record_t) * nat :=
  match k with
  | O => (None, tau)
  | S i =>
      if at_ (versions (mem tau)) i <=? t
      then (Some (at_ (versions (mem (S tau))) i,
                  at_ (values (mem (S (S tau)))) i),
            S (S (S tau)))
      else record_at_loop mem t i (S tau)
  end.

Definition record_at (mem : memory) (t : tid_t) (tau : nat)
  : result (option (tid_t * record_t)) * nat :=
  let n := size (mem tau) in
  match INVARIANT ((0 <? n)%nat && (n <=? NVersions)%nat) with
  | InvariantViolation => (InvariantViolation, S tau)
  | Ok _ =>
      let (found, tau') := record_at_loop mem t n (S tau) in (Ok found, tau')
  end.

Fixpoint stable_read (mem : memory) (t : tid_t) (fuel tau : nat)
  : option (result (option (tid_t * record_t)) * nat) :=
  match fuel with
  | O => None
  | S fuel' =>
      match stable_version mem fuel' tau with
      | None => None
      | Some (v, tau1) =>
          match record_at mem t tau1 with
          | (InvariantViolation, tau2) => Some (InvariantViolation, tau2)
          | (Ok None, tau2) => Some (Ok None, tau2)
          | (Ok (Some found), tau2) =>
              let (same, tau3) := check_version mem v tau2 in
              if same then Some (Ok (Some found), tau3)
              else stable_read mem t fuel' tau3
          end
      end
  end.

Definition is_latest_version (mem : memory) (t : tid_t) (tau : nat)
  : result bool * nat :=
  let n := size (mem tau) in
  match INVARIANT ((0 <? n)%nat && (n <=? NVersions)%nat) with
  | InvariantViolation => (InvariantViolation, S tau)
  | Ok _ => (Ok (at_ (versions (mem (S tau))) (n - 1) <=? t), S (S tau))
  end.

Fixpoint stable_is_latest_version (mem : memory) (t : tid_t) (fuel tau : nat)
  : option (result bool * nat) :=
  match fuel with
  | O => None
  | S fuel' =>
      match stable_version mem fuel' tau with
      | None => None
      | Some (v, tau1) =>
          match is_latest_version mem t tau1 with
          | (InvariantViolation, tau2) => Some (InvariantViolation, tau2)
          | (Ok ret, tau2) =>
              let (same, tau3) := check_version mem v tau2 in
              if same then Some (Ok ret, tau3)
              else stable_is_latest_version mem t fuel' tau3
          end
      end
  end.

(** The accesses of the slow path: [versions[i]] for the test and, on a
    hit, [versions[i + 1]] for the invariant and again for the result. *)
Fixpoint snapshot_slow_path (mem : memory) (snapshot_tid commit_tid : tid_t)
  (k tau : nat) : result bool * nat :=
  match k with
  | O => (Ok false, tau)
  | S i =>
      if at_ (versions (mem tau)) i <=? snapshot_tid
      then
        match INVARIANT (negb (at_ (versions (mem (S tau))) (i + 1) =? commit_tid)) with
        | InvariantViolation => (InvariantViolation, S (S tau))
        | Ok _ =>
            (Ok (commit_tid <? at_ (versions (mem (S (S tau)))) (i + 1)),
             S (S (S tau)))
        end
      else snapshot_slow_path mem snapshot_tid commit_tid i (S tau)
  end.

Definition is_snapshot_consistent (mem : memory)
  (snapshot_tid commit_tid : tid_t) (tau : nat) : result bool * nat :=
  let n := size (mem tau) in
  match INVARIANT ((0 <? n)%nat && (n <=? NVersions)%nat) with
  | InvariantViolation => (InvariantViolation, S tau)
  | Ok _ =>
      if at_ (versions (mem (S tau))) (n - 1) <=? snapshot_tid
      then (Ok true, S (S tau))
      else snapshot_slow_path mem snapshot_tid commit_tid (n - 1) (S (S tau))
  end.

Fixpoint stable_is_snapshot_consistent (mem : memory)
  (snapshot_tid commit_tid : tid_t) (fuel tau : nat)
  : option (result bool * nat) :=
  match fuel with
  | O => None
  | S fuel' =>
      match stable_version mem fuel' tau with
      | None => None
      | Some (v, tau1) =>
          match is_snapshot_consistent mem snapshot_tid commit_tid tau1 with
          | (InvariantViolation, tau2) => Some (InvariantViolation, tau2)
          | (Ok ret, tau2) =>
              let (same, tau3) := check_version mem v tau2 in
              if same then Some (Ok ret, tau3)
              else stable_is_snapshot_consistent mem snapshot_tid commit_tid
                     fuel' tau3
          end
      end
  end.

End Shared.

(** The node [sample_node] after [write_record_at(16, 43)], and after the
    [unlock] that follows. *)
Definition written_node : logical_node :=
  mk_logical_node 9
    (0 :: 5 :: 10 :: 16 :: replicate 11 0) (0 :: 41 :: 42 :: 43 :: replicate 11 0).

Definition committed_node : logical_node := set_hdr written_node 40.

(** A history in which a writer installs version 16 while a reader is at
    work: the node is free at instant 0, locked at 1, written at 2 and
    unlocked from 3 on. *)
Definition busy_memory : Shared.memory :=
  fun tau : nat =>
    match tau with
    | 0%nat => unlocked_node
    | 1%nat => sample_node
    | 2%nat => written_node
    | _ => committed_node
    end.

Definition busy_epoch (tau : nat) : nat :=
  match tau with
  | 0%nat | 1%nat | 2%nat => 0%nat
  | _ => 1%nat
  end.

(** The two stores of [set_size] to the volatile header, one at a time:
    [hdr &= ~HDR_SIZE_MASK] and [hdr |= (n << HDR_SIZE_SHIFT)]. *)
Definition set_size_first_store (ln : logical_node) : logical_node :=
  set_hdr ln (Z.land (hdr ln) (not64 HDR_SIZE_MASK)).

Definition set_size_second_store (ln : logical_node) (n : nat) : logical_node :=
  set_hdr ln (Z.lor (hdr ln) (shl64 (Z.of_nat n) HDR_SIZE_SHIFT)).

(** A reader meets a writer that is between the two stores of [set_size]:
    the node is free at instant 0 and the count field is cleared, under the
    lock, at instant 1. *)
Definition racy_memory : Shared.memory :=
  fun tau : nat =>
    match tau with
    | 0%nat => unlocked_node
    | _ => set_size_first_store sample_node
    end.

(* ===================================================================== *)
(** * Properties *)
(* ===================================================================== *)

(** ** The model on concrete inputs *)

Example unlock_sample_node :
  unlock sample_node = Ok (set_hdr sample_node 38).
Proof. reflexivity. Qed.

Example write_record_at_sample_node :
  write_record_at sample_node 11 43
  = Ok (mk_logical_node 9
          (0 :: 5 :: 10 :: 11 :: replicate 11 0)
          (0 :: 41 :: 42 :: 43 :: replicate 11 0)).
Proof. reflexivity. Qed.

Example record_at_sample_node :
  record_at sample_node 9 = Ok (Some (5, 41))
  /\ record_at sample_node 10 = Ok (Some (10, 42))
  /\ record_at (mk_logical_node 4 (5 :: 10 :: replicate 13 0) (replicate 15 0)) 3
     = Ok None.
Proof. repeat split; reflexivity. Qed.

Example is_snapshot_consistent_sample_node :
  is_snapshot_consistent sample_node 10 11 = Ok true
  /\ is_snapshot_consistent sample_node 6 7 = Ok true
  /\ is_snapshot_consistent sample_node 6 12 = Ok false
  /\ is_snapshot_consistent sample_node 3 7 = Ok false.
Proof. repeat split; reflexivity. Qed.

Example add_absent_range_merges :
  fold_left add_absent_range
    [key_range_t.mk "b" true "d"; key_range_t.mk "d" true "f";
     key_range_t.mk "a" true "c"; key_range_t.mk "x" true "x";
     key_range_t.mk "m" true "p"; key_range_t.mk "h" true "j"] []
  = [key_range_t.mk "a" true "f"; key_range_t.mk "h" true "j";
     key_range_t.mk "m" true "p"].
Proof. reflexivity. Qed.

Example key_in_absent_set_probe :
  map (key_in_absent_set
         [key_range_t.mk "a" true "f"; key_range_t.mk "h" true "j";
          key_range_t.mk "m" false ""])
      ["a"; "e"; "f"; "g"; "h"; "j"; "l"; "m"; "zz"]
  = [true; true; false; false; true; false; false; true; true].
Proof. reflexivity. Qed.

(** ** The header word *)


Lemma land_shifted_ones (v k s : Z) :
  0 <= k -> 0 <= s ->
  Z.land v (Z.shiftl (Z.ones k) s) = ((v / 2 ^ s) mod 2 ^ k) * 2 ^ s.
Proof.
  intros Hk Hs.
  rewrite <- Z.shiftr_div_pow2, <- Z.land_ones, <- Z.shiftl_mul_pow2 by lia.
  apply Z.bits_inj'. intros i Hi.
  rewrite Z.land_spec.
  destruct (Z.lt_ge_cases i s) as [Hlt | Hge].
  - rewrite !Z.shiftl_spec_low by lia. apply andb_false_r.
  - rewrite !Z.shiftl_spec by lia.
    rewrite Z.land_spec, Z.shiftr_spec by lia.
    replace (i - s + s) with i by lia. reflexivity.
Qed.

Lemma lor_disjoint_add (x y s : Z) :
  0 <= s -> 0 <= x < 2 ^ s -> Z.lor x (y * 2 ^ s) = x + y * 2 ^ s.
Proof.
  intros Hs Hx.
  assert (Z.land x (y * 2 ^ s) = 0) as Hd.
  { rewrite <- Z.shiftl_mul_pow2 by lia.
    apply Z.bits_inj'. intros i Hi.
    rewrite Z.land_spec, Z.bits_0.
    destruct (Z.lt_ge_cases i s) as [Hlt | Hge].
    - rewrite Z.shiftl_spec_low by lia. apply andb_false_r.
    - replace (Z.testbit x i) with false; [reflexivity|].
      symmetry. rewrite <- (Z.mod_small x (2 ^ s)) by lia.
      apply Z.mod_pow2_bits_high. lia. }
  rewrite <- Z.lxor_lor, <- Z.add_nocarry_lxor by exact Hd. reflexivity.
Qed.

Lemma Version_div (v : Z) : Version v = (v / 32) mod 2 ^ 59.
Proof.
  unfold Version.
  change HDR_VERSION_MASK with (Z.shiftl (Z.ones 59) 5).
  change HDR_VERSION_SHIFT with 5.
  rewrite land_shifted_ones, Z.shiftr_div_pow2 by lia.
  change (2 ^ 5) with 32. rewrite Z.div_mul by lia. reflexivity.
Qed.

Lemma Size_div (v : Z) : Size v = (v / 2) mod 16.
Proof.
  unfold Size.
  change HDR_SIZE_MASK with (Z.shiftl (Z.ones 4) 1).
  change HDR_SIZE_SHIFT with 1.
  rewrite land_shifted_ones, Z.shiftr_div_pow2 by lia.
  change (2 ^ 1) with 2. rewrite Z.div_mul by lia. reflexivity.
Qed.

Lemma IsLocked_mod (v : Z) : IsLocked v = (v mod 2 =? 1).
Proof.
  unfold IsLocked. change HDR_LOCKED_MASK with (Z.ones 1).
  rewrite Z.land_ones by lia. change (2 ^ 1) with 2.
  pose proof (Z.mod_pos_bound v 2 ltac:(lia)).
  destruct (Z.eqb_spec (v mod 2) 0), (Z.eqb_spec (v mod 2) 1); simpl; lia.
Qed.

(** The count field has four bits: [size()] is at most [NVersions]. *)
Lemma size_never_exceeds_NVersions (ln : logical_node) :
  (size ln <= NVersions)%nat.
Proof.
  unfold size, NVersions. rewrite Size_div.
  pose proof (Z.mod_pos_bound (hdr ln / 2) 16 ltac:(lia)). lia.
Qed.

Lemma unlock_word_arith (v : Z) :
  in_range v ->
  unlock_word v = ((v / 32 + 1) mod 2 ^ 59) * 32 + v mod 32 - v mod 2.
Proof.
  unfold in_range, modulus. intros Hv. unfold unlock_word.
  rewrite Version_div.
  change (not64 HDR_VERSION_MASK) with (Z.ones 5).
  change HDR_VERSION_MASK with (Z.shiftl (Z.ones 59) 5).
  change (not64 HDR_LOCKED_MASK) with (Z.shiftl (Z.ones 63) 1).
  change HDR_VERSION_SHIFT with 5.
  rewrite Z.land_ones by lia.
  rewrite !land_shifted_ones by lia.
  unfold shl64, add64, wrap64, modulus.
  rewrite Z.shiftl_mul_pow2 by lia.
  change (2 ^ 5) with 32. change (2 ^ 1) with 2.
  assert ((((v / 32) mod 2 ^ 59 + 1) mod 2 ^ 64 * 32) mod 2 ^ 64 / 32 mod 2 ^ 59
          = (v / 32 + 1) mod 2 ^ 59) as ->.
  { Z.div_mod_to_equations. lia. }
  change 32 with (2 ^ 5) at 3.
  rewrite lor_disjoint_add by (try apply Z.mod_pos_bound; lia).
  change (2 ^ 5) with 32.
  Z.div_mod_to_equations. lia.
Qed.

Lemma set_size_word_arith (h : Z) (n : nat) :
  in_range h -> (n <= NVersions)%nat ->
  set_size_word h n = (h / 32) * 32 + Z.of_nat n * 2 + h mod 2.
Proof.
  unfold in_range, modulus, NVersions. intros Hh Hn. unfold set_size_word.
  change (not64 HDR_SIZE_MASK) with (Z.lor (Z.ones 1) (Z.shiftl (Z.ones 59) 5)).
  change HDR_SIZE_SHIFT with 1.
  rewrite Z.land_lor_distr_r, Z.land_ones, land_shifted_ones by lia.
  unfold shl64, wrap64, modulus. rewrite Z.shiftl_mul_pow2 by lia.
  rewrite (Z.mod_small (_ * 2 ^ 1)) by lia.
  rewrite (Z.lor_comm (h mod 2 ^ 1)), <- Z.lor_assoc.
  rewrite (lor_disjoint_add (h mod 2 ^ 1) (Z.of_nat n) 1)
    by (try apply Z.mod_pos_bound; lia).
  rewrite Z.lor_comm.
  rewrite lor_disjoint_add; change (2 ^ 5) with 32; change (2 ^ 1) with 2.
  - Z.div_mod_to_equations. lia.
  - lia.
  - Z.div_mod_to_equations. lia.
Qed.

Lemma unlock_word_fields (v : Z) :
  in_range v ->
  in_range (unlock_word v)
  /\ IsLocked (unlock_word v) = false
  /\ Version (unlock_word v) = (Version v + 1) mod 2 ^ 59
  /\ Size (unlock_word v) = Size v.
Proof.
  intros Hv. rewrite IsLocked_mod, !Version_div, !Size_div.
  rewrite unlock_word_arith by exact Hv.
  unfold in_range, modulus in *.
  rewrite Zplus_mod_idemp_l.
  repeat split.
  - Z.div_mod_to_equations. lia.
  - Z.div_mod_to_equations. lia.
  - apply Z.eqb_neq. Z.div_mod_to_equations. lia.
  - Z.div_mod_to_equations. lia.
  - Z.div_mod_to_equations. lia.
Qed.

Lemma set_size_word_fields (h : Z) (n : nat) :
  in_range h -> (n <= NVersions)%nat ->
  in_range (set_size_word h n)
  /\ Size (set_size_word h n) = Z.of_nat n
  /\ IsLocked (set_size_word h n) = IsLocked h
  /\ Version (set_size_word h n) = Version h.
Proof.
  intros Hh Hn. rewrite !IsLocked_mod, !Version_div, !Size_div.
  rewrite set_size_word_arith by assumption.
  unfold in_range, modulus, NVersions in *.
  repeat split.
  - Z.div_mod_to_equations. lia.
  - Z.div_mod_to_equations. lia.
  - Z.div_mod_to_equations. lia.
  - f_equal. Z.div_mod_to_equations. lia.
  - f_equal. Z.div_mod_to_equations. lia.
Qed.

(** ** The version chain *)


Lemma at_insert_eq (l : list Z) (i : nat) (x : Z) :
  (i < length l)%nat -> at_ (<[i := x]> l) i = x.
Proof.
  intros Hi. unfold at_. rewrite nth_lookup, list_lookup_insert_eq by exact Hi.
  reflexivity.
Qed.

Lemma at_insert_ne (l : list Z) (i j : nat) (x : Z) :
  i <> j -> at_ (<[i := x]> l) j = at_ l j.
Proof.
  intros Hij. unfold at_. rewrite !nth_lookup, list_lookup_insert_ne by exact Hij.
  reflexivity.
Qed.

Lemma INVARIANT_true {A : Type} (e : bool) (k : result A) :
  e = true -> (INVARIANT e ;;; k) = k.
Proof. intros ->. reflexivity. Qed.

Lemma INVARIANT_false {A : Type} (e : bool) (k : result A) :
  e = false -> (INVARIANT e ;;; k) = InvariantViolation.
Proof. intros ->. reflexivity. Qed.

Lemma size_check (n : nat) :
  (0 < n <= NVersions)%nat -> ((0 <? n)%nat && (n <=? NVersions)%nat) = true.
Proof.
  intros [H0 H1]. apply andb_true_intro.
  split; [apply Nat.ltb_lt | apply Nat.leb_le]; assumption.
Qed.

(** *** record_at *)

Lemma record_at_loop_found (ln : logical_node) (t : tid_t) (k : nat) s r :
  record_at_loop ln t k = Some (s, r) ->
  exists i : nat, (i < k)%nat
    /\ s = at_ (versions ln) i /\ r = at_ (values ln) i /\ s <= t
    /\ forall j : nat, (i < j < k)%nat -> t < at_ (versions ln) j.
Proof.
  induction k as [|k IH]; simpl; [discriminate|].
  destruct (Z.leb_spec (at_ (versions ln) k) t) as [Hle | Hgt].
  - intros [= <- <-]. exists k. repeat split; try lia.
  - intros Hrec. destruct (IH Hrec) as (i & Hi & Hs & Hr & Hle & Hnewer).
    exists i. repeat split; try assumption; try lia.
    intros j Hj. destruct (decide (j = k)) as [-> | Hne]; [exact Hgt|].
    apply Hnewer. lia.
Qed.

Lemma record_at_loop_none (ln : logical_node) (t : tid_t) (k : nat) :
  record_at_loop ln t k = None <->
  forall j : nat, (j < k)%nat -> t < at_ (versions ln) j.
Proof.
  induction k as [|k IH]; simpl.
  - split; [intros _ j Hj; lia | reflexivity].
  - destruct (Z.leb_spec (at_ (versions ln) k) t) as [Hle | Hgt].
    + split; [discriminate|]. intros H. specialize (H k). lia.
    + rewrite IH. split; intros H j Hj.
      * destruct (decide (j = k)) as [-> | Hne]; [exact Hgt | apply H; lia].
      * apply H. lia.
Qed.

(** Claim C3. On a node whose [size] is between 1 and [NVersions] and whose
    retained timestamps strictly increase, [record_at(t)] passes its
    invariant check and: when some retained timestamp is at most [t], it
    returns found with the retained pair (timestamp, value) whose timestamp
    is the largest one at most [t]; it returns not-found exactly when every
    retained timestamp is strictly greater than [t]. *)
Theorem record_at_spec (ln : logical_node) (t : tid_t) :
  (0 < size ln <= NVersions)%nat ->
  strictly_increasing ln ->
  ((exists j : nat, (j < size ln)%nat /\ at_ (versions ln) j <= t) ->
   exists i : nat, (i < size ln)%nat
     /\ record_at ln t = Ok (Some (at_ (versions ln) i, at_ (values ln) i))
     /\ at_ (versions ln) i <= t
     /\ forall j : nat, (j < size ln)%nat -> at_ (versions ln) j <= t ->
          at_ (versions ln) j <= at_ (versions ln) i)
  /\ (record_at ln t = Ok None <->
      forall j : nat, (j < size ln)%nat -> t < at_ (versions ln) j).
Proof.
  intros Hn Hinc. unfold record_at.
  rewrite INVARIANT_true by (apply size_check; exact Hn).
  split.
  - intros (j0 & Hj0 & Hle0).
    destruct (record_at_loop ln t (size ln)) as [[s r]|] eqn:Hloop.
    + apply record_at_loop_found in Hloop
        as (i & Hi & -> & -> & Hle & Hnewer).
      exists i. repeat split; try assumption.
      intros j Hj Hjt.
      destruct (Nat.lt_trichotomy j i) as [Hlt | [-> | Hgt]].
      * specialize (Hinc j i). lia.
      * lia.
      * specialize (Hnewer j). lia.
    + rewrite record_at_loop_none in Hloop. specialize (Hloop j0 Hj0). lia.
  - rewrite <- record_at_loop_none.
    split; [intros [= ->]; reflexivity | intros ->; reflexivity].
Qed.

Lemma strictly_increasingb_sound (ln : logical_node) :
  strictly_increasingb ln = true -> strictly_increasing ln.
Proof.
  unfold strictly_increasingb. rewrite forallb_forall.
  intros Hstep i j [Hij Hj].
  assert (forall d : nat, (i + S d < size ln)%nat ->
            at_ (versions ln) i < at_ (versions ln) (i + S d)) as Hd.
  { induction d as [|d IH]; intros Hlt.
    - specialize (Hstep i). rewrite in_seq in Hstep.
      apply Z.ltb_lt.
      apply Hstep. lia.
    - specialize (Hstep (i + S d)%nat). rewrite in_seq in Hstep.
      replace (i + S (S d))%nat with (i + S d + 1)%nat by lia.
      etransitivity; [apply IH; lia|].
      apply Z.ltb_lt, Hstep. lia. }
  replace j with (i + S (j - i - 1))%nat by lia. apply Hd. lia.
Qed.

Lemma sample_node_increasing : strictly_increasing sample_node.
Proof. apply strictly_increasingb_sound. reflexivity. Qed.

Lemma record_at_spec_witness :
  (0 < size sample_node <= NVersions)%nat
  /\ strictly_increasing sample_node
  /\ exists i : nat, (i < size sample_node)%nat
       /\ record_at sample_node 7
          = Ok (Some (at_ (versions sample_node) i, at_ (values sample_node) i))
       /\ at_ (versions sample_node) i <= 7.
Proof.
  assert (0 < size sample_node <= NVersions)%nat as Hn by (vm_compute; lia).
  split; [exact Hn|]. split; [exact sample_node_increasing|].
  destruct (record_at_spec sample_node 7 Hn sample_node_increasing) as [Hfound _].
  destruct Hfound as (i & Hi & Hrec & Hle & _).
  - exists 0%nat. vm_compute. split; [lia | discriminate].
  - exists i. repeat split; assumption.
Defined.

(** Claim C4. Whatever the allocated memory held, the constructor yields a
    node with exactly one retained entry, of timestamp [MIN_TID] = 0 and
    value [NULL]; on that node [record_at(t)] returns found with
    [start_t] = 0 and a null value for every timestamp [t], never
    not-found. *)
Theorem fresh_node_spec (vs0 : list tid_t) (rs0 : list record_t) (t : tid_t) :
  length vs0 = NVersions -> length rs0 = NVersions -> in_range t ->
  exists ln : logical_node,
    logical_node_new vs0 rs0 = Ok ln
    /\ size ln = 1%nat
    /\ at_ (versions ln) 0 = MIN_TID /\ MIN_TID = 0
    /\ at_ (values ln) 0 = NULL
    /\ record_at ln t = Ok (Some (0, NULL)).
Proof.
  intros Hvs Hrs [Ht _].
  eexists. split; [reflexivity|].
  assert (forall l : list Z, length l = NVersions -> at_ (<[0%nat := 0]> l) 0 = 0)
    as Hslot by (intros l Hl; apply at_insert_eq; rewrite Hl; unfold NVersions; lia).
  repeat split; try (apply Hslot; assumption).
  unfold record_at. simpl.
  change (at_ (<[0%nat := MIN_TID]> vs0) 0) with (at_ (<[0%nat := 0]> vs0) 0).
  change (at_ (<[0%nat := NULL]> rs0) 0) with (at_ (<[0%nat := 0]> rs0) 0).
  rewrite !Hslot by assumption.
  destruct (Z.leb_spec 0 t) as [_ | Hlt]; [reflexivity | lia].
Qed.

Lemma fresh_node_spec_witness :
  in_range 123
  /\ exists ln : logical_node,
       logical_node_new (replicate 15 99) (replicate 15 77) = Ok ln
       /\ size ln = 1%nat
       /\ at_ (versions ln) 0 = 0 /\ at_ (values ln) 0 = NULL
       /\ record_at ln 123 = Ok (Some (0, NULL)).
Proof.
  assert (in_range 123) as Hr by (vm_compute; split; [discriminate | reflexivity]).
  split; [exact Hr|].
  destruct (fresh_node_spec (replicate 15 99) (replicate 15 77) 123
              eq_refl eq_refl Hr)
    as (ln & Hnew & Hsz & Hv & _ & Hr0 & Hrec).
  exists ln. repeat split; assumption.
Defined.

(** *** is_snapshot_consistent *)

Lemma snapshot_slow_path_found (ln : logical_node) (snap commit : tid_t) (k i : nat) :
  (i < k)%nat ->
  at_ (versions ln) i <= snap ->
  (forall j : nat, (i < j < k)%nat -> snap < at_ (versions ln) j) ->
  snapshot_slow_path ln snap commit k =
    (INVARIANT (negb (at_ (versions ln) (i + 1) =? commit)) ;;;
     Ok (commit <? at_ (versions ln) (i + 1))).
Proof.
  induction k as [|k IH]; intros Hi Hle Hnewer; [lia|]. simpl.
  destruct (Z.leb_spec (at_ (versions ln) k) snap) as [Hk | Hk].
  - destruct (decide (i = k)) as [-> | Hne]; [reflexivity|].
    specialize (Hnewer k). lia.
  - assert (i <> k) by (intros ->; lia).
    apply IH; [lia | exact Hle | intros j Hj; apply Hnewer; lia].
Qed.

Lemma snapshot_slow_path_none (ln : logical_node) (snap commit : tid_t) (k : nat) :
  (forall j : nat, (j < k)%nat -> snap < at_ (versions ln) j) ->
  snapshot_slow_path ln snap commit k = Ok false.
Proof.
  induction k as [|k IH]; intros Hnewer; [reflexivity|]. simpl.
  destruct (Z.leb_spec (at_ (versions ln) k) snap) as [Hk | Hk].
  - specialize (Hnewer k). lia.
  - apply IH. intros j Hj. apply Hnewer. lia.
Qed.

Lemma active_version_exists (ln : logical_node) (snap : tid_t) (k : nat) :
  snap < at_ (versions ln) k ->
  (exists j : nat, (j < k)%nat /\ at_ (versions ln) j <= snap) ->
  exists i : nat, (i < k)%nat
    /\ at_ (versions ln) i <= snap < at_ (versions ln) (i + 1).
Proof.
  induction k as [|k IH]; intros Hk (j & Hj & Hle); [lia|].
  destruct (Z.le_gt_cases (at_ (versions ln) k) snap) as [Hle' | Hgt].
  - exists k. replace (k + 1)%nat with (S k) by lia. split; [lia | lia].
  - destruct IH as (i & Hi & Hact).
    + lia.
    + exists j. split; [|exact Hle].
      destruct (decide (j = k)) as [-> | Hne]; lia.
    + exists i. split; [lia | exact Hact].
Qed.

(** Claim C1. On a node that retains at least one version and whose
    retained timestamps strictly increase,
    [is_snapshot_consistent(snapshot_tid, commit_tid)] returns true when the
    newest retained timestamp is at most [snapshot_tid]. Otherwise, when
    some retained timestamp is at most [snapshot_tid], there is a version
    active at the snapshot: an index [i] with
    [versions[i] <= snapshot_tid < versions[i+1]]; for that index the call
    returns true exactly when [versions[i+1] > commit_tid], returns false
    when [versions[i+1] < commit_tid], and fails its invariant check when
    [versions[i+1] = commit_tid]. When no retained timestamp is at most
    [snapshot_tid] it returns false. The last part is the middle case in
    the words of the claim: some retained version, at an index [i], has a
    timestamp at most [snapshot_tid] and the call returns true exactly when
    [versions[i+1] > commit_tid]. *)
Theorem is_snapshot_consistent_spec (ln : logical_node) (snapshot_tid commit_tid : tid_t) :
  (0 < size ln)%nat ->
  strictly_increasing ln ->
  let n := size ln in
  let ret := is_snapshot_consistent ln snapshot_tid commit_tid in
  (at_ (versions ln) (n - 1) <= snapshot_tid -> ret = Ok true)
  /\ (snapshot_tid < at_ (versions ln) (n - 1) ->
      (exists j : nat, (j < n)%nat /\ at_ (versions ln) j <= snapshot_tid) ->
      exists i : nat, (i + 1 < n)%nat
        /\ at_ (versions ln) i <= snapshot_tid < at_ (versions ln) (i + 1))
  /\ (forall i : nat, (i + 1 < n)%nat ->
      at_ (versions ln) i <= snapshot_tid < at_ (versions ln) (i + 1) ->
      (ret = Ok true <-> commit_tid < at_ (versions ln) (i + 1))
      /\ (at_ (versions ln) (i + 1) < commit_tid -> ret = Ok false)
      /\ (at_ (versions ln) (i + 1) = commit_tid -> ret = InvariantViolation))
  /\ ((forall j : nat, (j < n)%nat -> snapshot_tid < at_ (versions ln) j) ->
      ret = Ok false)
  /\ (snapshot_tid < at_ (versions ln) (n - 1) ->
      (exists j : nat, (j < n)%nat /\ at_ (versions ln) j <= snapshot_tid) ->
      exists i : nat, (i + 1 < n)%nat
        /\ at_ (versions ln) i <= snapshot_tid
        /\ (ret = Ok true <-> commit_tid < at_ (versions ln) (i + 1))).
Proof.
  intros Hpos Hinc n ret.
  assert (0 < size ln <= NVersions)%nat as Hn
    by (split; [exact Hpos | apply size_never_exceeds_NVersions]).
  subst ret. unfold is_snapshot_consistent. fold n.
  rewrite INVARIANT_true by (apply size_check; exact Hn).
  assert (snapshot_tid < at_ (versions ln) (n - 1) ->
          (exists j : nat, (j < n)%nat /\ at_ (versions ln) j <= snapshot_tid) ->
          exists i : nat, (i + 1 < n)%nat
            /\ at_ (versions ln) i <= snapshot_tid < at_ (versions ln) (i + 1))
    as Hactive.
  { intros Hnew (j & Hj & Hle).
    destruct (active_version_exists ln snapshot_tid (n - 1) Hnew) as (i & Hi & Hact).
    - exists j. split; [|exact Hle].
      destruct (decide (j = (n - 1)%nat)) as [-> | Hne]; lia.
    - exists i. split; [lia | exact Hact]. }
  assert (forall i : nat, (i + 1 < n)%nat ->
          at_ (versions ln) i <= snapshot_tid < at_ (versions ln) (i + 1) ->
          (if at_ (versions ln) (n - 1) <=? snapshot_tid then Ok true
           else snapshot_slow_path ln snapshot_tid commit_tid (n - 1))
          = (INVARIANT (negb (at_ (versions ln) (i + 1) =? commit_tid)) ;;;
             Ok (commit_tid <? at_ (versions ln) (i + 1)))) as Hslow.
  { intros i Hi [Hle Hgt].
    assert (forall j : nat, (i < j < n)%nat -> snapshot_tid < at_ (versions ln) j)
      as Hnewer.
    { intros j Hj. destruct (decide (j = (i + 1)%nat)) as [-> | Hne]; [exact Hgt|].
      specialize (Hinc (i + 1)%nat j). unfold n in Hj. lia. }
    destruct (Z.leb_spec (at_ (versions ln) (n - 1)) snapshot_tid) as [Hfast | _].
    { specialize (Hnewer (n - 1)%nat). lia. }
    apply snapshot_slow_path_found;
      [lia | exact Hle | intros j Hj; apply Hnewer; lia]. }
  split; [|split; [|split; [|split]]].
  - intros Hle.
    destruct (Z.leb_spec (at_ (versions ln) (n - 1)) snapshot_tid); [reflexivity | lia].
  - exact Hactive.
  - intros i Hi Hact. rewrite (Hslow i Hi Hact).
    destruct (Z.eqb_spec (at_ (versions ln) (i + 1)) commit_tid) as [Heq | Hne]; simpl.
    + repeat split; try discriminate; try lia.
    + destruct (Z.ltb_spec commit_tid (at_ (versions ln) (i + 1))); simpl.
      * repeat split; try reflexivity; try lia.
      * repeat split; try discriminate; try reflexivity; try lia.
  - intros Hnewer.
    destruct (Z.leb_spec (at_ (versions ln) (n - 1)) snapshot_tid) as [Hfast | _].
    { specialize (Hnewer (n - 1)%nat). lia. }
    apply snapshot_slow_path_none. intros j Hj. apply Hnewer. lia.
  - intros Hnew Hsome. destruct (Hactive Hnew Hsome) as (i & Hi & Hact).
    exists i. split; [exact Hi|]. split; [lia|].
    rewrite (Hslow i Hi Hact).
    destruct (Z.eqb_spec (at_ (versions ln) (i + 1)) commit_tid) as [Heq | Hne]; simpl.
    + split; [discriminate | lia].
    + destruct (Z.ltb_spec commit_tid (at_ (versions ln) (i + 1))); simpl.
      * split; [intros _; assumption | reflexivity].
      * split; [discriminate | lia].
Qed.

Lemma is_snapshot_consistent_spec_witness :
  (0 < size sample_node)%nat
  /\ strictly_increasing sample_node
  /\ at_ (versions sample_node) 1 <= 6 < at_ (versions sample_node) (1 + 1)
  /\ (is_snapshot_consistent sample_node 6 7 = Ok true <->
      7 < at_ (versions sample_node) (1 + 1))
  /\ is_snapshot_consistent sample_node 6 12 = Ok false
  /\ is_snapshot_consistent sample_node 6 10 = InvariantViolation
  /\ exists i : nat, (i + 1 < size sample_node)%nat
       /\ at_ (versions sample_node) i <= 6
       /\ (is_snapshot_consistent sample_node 6 7 = Ok true <->
           7 < at_ (versions sample_node) (i + 1)).
Proof.
  assert (0 < size sample_node)%nat as Hn by (vm_compute; lia).
  assert (at_ (versions sample_node) 1 <= 6 < at_ (versions sample_node) (1 + 1))
    as Hact by (vm_compute; split; [discriminate | reflexivity]).
  split; [exact Hn|]. split; [exact sample_node_increasing|].
  split; [exact Hact|].
  destruct (is_snapshot_consistent_spec sample_node 6 7 Hn sample_node_increasing)
    as (_ & _ & H7 & _ & Hsome).
  destruct (is_snapshot_consistent_spec sample_node 6 12 Hn sample_node_increasing)
    as (_ & _ & H12 & _).
  destruct (is_snapshot_consistent_spec sample_node 6 10 Hn sample_node_increasing)
    as (_ & _ & H10 & _).
  split; [apply (H7 1%nat); [vm_compute; lia | exact Hact]|].
  split; [apply (H12 1%nat); [vm_compute; lia | exact Hact | reflexivity]|].
  split; [apply (H10 1%nat); [vm_compute; lia | exact Hact | reflexivity]|].
  apply Hsome.
  - vm_compute. reflexivity.
  - exists 0%nat. vm_compute. split; [lia | discriminate].
Defined.

(** *** write_record_at *)

Lemma shift_down_hdr (ln : logical_node) (i k : nat) :
  hdr (shift_down ln i k) = hdr ln.
Proof.
  revert ln i. induction k as [|k IH]; intros ln i; simpl; [reflexivity|].
  rewrite IH. reflexivity.
Qed.

Lemma shift_down_length (ln : logical_node) (i k : nat) :
  length (versions (shift_down ln i k)) = length (versions ln)
  /\ length (values (shift_down ln i k)) = length (values ln).
Proof.
  revert ln i. induction k as [|k IH]; intros ln i; simpl.
  - split; reflexivity.
  - destruct (IH (set_slot ln i (at_ (versions ln) (i + 1)) (at_ (values ln) (i + 1)))
                (i + 1)%nat) as [-> ->].
    simpl. rewrite !length_insert. split; reflexivity.
Qed.

Lemma shift_down_slots (ln : logical_node) (i k j : nat) :
  (i + k < length (versions ln))%nat ->
  (i + k < length (values ln))%nat ->
  at_ (versions (shift_down ln i k)) j =
    at_ (versions ln) (if decide (i <= j < i + k)%nat then j + 1 else j)
  /\ at_ (values (shift_down ln i k)) j =
    at_ (values ln) (if decide (i <= j < i + k)%nat then j + 1 else j).
Proof.
  revert ln i. induction k as [|k IH]; intros ln i Hvs Hrs; simpl.
  - rewrite decide_False by lia. split; reflexivity.
  - destruct (IH (set_slot ln i (at_ (versions ln) (i + 1)) (at_ (values ln) (i + 1)))
                (i + 1)%nat) as [IHv IHr].
    { simpl. rewrite length_insert. lia. }
    { simpl. rewrite length_insert. lia. }
    rewrite IHv, IHr. simpl.
    destruct (decide (i + 1 <= j < i + 1 + k)%nat) as [Hin | Hout].
    + rewrite decide_True by lia.
      rewrite !at_insert_ne by lia. split; reflexivity.
    + destruct (decide (j = i)) as [-> | Hne].
      * rewrite decide_True by lia.
        rewrite !at_insert_eq by lia. split; reflexivity.
      * rewrite decide_False by lia.
        rewrite !at_insert_ne by lia. split; reflexivity.
Qed.

Lemma shift_down_all (ln : logical_node) :
  array_shape ln ->
  hdr (shift_down ln 0 (NVersions - 1)) = hdr ln
  /\ array_shape (shift_down ln 0 (NVersions - 1))
  /\ forall j : nat, (j < NVersions - 1)%nat ->
       at_ (versions (shift_down ln 0 (NVersions - 1))) j = at_ (versions ln) (j + 1)
       /\ at_ (values (shift_down ln 0 (NVersions - 1))) j = at_ (values ln) (j + 1).
Proof.
  intros [Hvs Hrs]. generalize (eq_refl (NVersions - 1)%nat).
  generalize (NVersions - 1)%nat at 2 3 4 5 6 7. intros k Hk.
  split; [apply shift_down_hdr|]. split.
  - unfold array_shape. destruct (shift_down_length ln 0 k) as [-> ->].
    split; assumption.
  - intros j Hj.
    destruct (shift_down_slots ln 0 k j) as [Hv Hr];
      [rewrite Hvs; unfold NVersions in *; lia
      |rewrite Hrs; unfold NVersions in *; lia |].
    rewrite Hv, Hr, decide_True by lia. split; reflexivity.
Qed.

Lemma set_size_ok (ln : logical_node) (n : nat) :
  (n <= NVersions)%nat ->
  set_size ln n = Ok (set_hdr ln (set_size_word (hdr ln) n)).
Proof.
  intros Hn. unfold set_size.
  rewrite INVARIANT_true by (apply Nat.leb_le; exact Hn). reflexivity.
Qed.

Lemma increasing_le_newest (ln : logical_node) (i : nat) :
  strictly_increasing ln -> (i < size ln)%nat ->
  at_ (versions ln) i <= at_ (versions ln) (size ln - 1).
Proof.
  intros Hinc Hi.
  destruct (decide (i = (size ln - 1)%nat)) as [-> | Hne]; [lia|].
  specialize (Hinc i (size ln - 1)%nat). lia.
Qed.

(** Claim C2, amended. On a locked node whose [size] is between 1 and
    [NVersions] and whose retained timestamps strictly increase, for a
    timestamp [t] strictly greater than the newest retained one,
    [write_record_at(t, r)] appends the pair [(t, r)]. With room left the
    pair goes in slot [size], the older slots are unchanged and [size]
    grows by one. On a full chain every slot moves down by one, which drops
    slot 0, the pair goes in slot [NVersions - 1] and [size] stays
    [NVersions]: slot 0 then holds the second oldest entry of before. In
    both cases the retained timestamps still strictly increase, the node
    stays locked and its stamp is unchanged. *)
Theorem write_record_at_spec (ln : logical_node) (t : tid_t) (r : record_t) :
  in_range (hdr ln) -> array_shape ln ->
  is_locked ln = true ->
  (0 < size ln <= NVersions)%nat ->
  strictly_increasing ln ->
  at_ (versions ln) (size ln - 1) < t ->
  exists ln' : logical_node,
    write_record_at ln t r = Ok ln'
    /\ strictly_increasing ln'
    /\ is_locked ln' = true
    /\ Version (hdr ln') = Version (hdr ln)
    /\ ((size ln < NVersions)%nat ->
        size ln' = (size ln + 1)%nat
        /\ at_ (versions ln') (size ln) = t
        /\ at_ (values ln') (size ln) = r
        /\ forall i : nat, (i < size ln)%nat ->
             at_ (versions ln') i = at_ (versions ln) i
             /\ at_ (values ln') i = at_ (values ln) i)
    /\ (size ln = NVersions ->
        size ln' = NVersions
        /\ at_ (versions ln') (NVersions - 1) = t
        /\ at_ (values ln') (NVersions - 1) = r
        /\ (forall i : nat, (i < NVersions - 1)%nat ->
              at_ (versions ln') i = at_ (versions ln) (i + 1)
              /\ at_ (values ln') i = at_ (values ln) (i + 1))
        /\ at_ (versions ln') 0 = at_ (versions ln) 1
        /\ at_ (values ln') 0 = at_ (values ln) 1).
Proof.
  intros Hhdr [Hvs Hrs] Hlocked Hn Hinc Ht. unfold write_record_at.
  rewrite INVARIANT_true by exact Hlocked.
  rewrite INVARIANT_true by (apply size_check; exact Hn).
  rewrite INVARIANT_true by (apply Z.ltb_lt; exact Ht).
  destruct (Nat.eqb_spec (size ln) NVersions) as [Hfull | Hroom].
  - (* the chain is full: the oldest version is dropped *)
    destruct (shift_down_all ln (conj Hvs Hrs)) as (Hhdr1 & [Hvs1 Hrs1] & Hshift).
    remember (shift_down ln 0 (NVersions - 1)) as ln1 eqn:Eln1. clear Eln1.
    exists (set_slot ln1 (NVersions - 1) t r). split; [reflexivity|].
    destruct ln1 as [h1 vs1 rs1]. unfold set_slot, is_locked, size.
    cbn [hdr versions values] in *. subst h1.
    assert (forall j : nat, (j < NVersions - 1)%nat ->
              at_ (<[(NVersions - 1)%nat := t]> vs1) j = at_ (versions ln) (j + 1)
              /\ at_ (<[(NVersions - 1)%nat := r]> rs1) j = at_ (values ln) (j + 1))
      as Hold.
    { intros j Hj. rewrite !at_insert_ne by lia. apply Hshift, Hj. }
    assert (at_ (<[(NVersions - 1)%nat := t]> vs1) (NVersions - 1) = t
            /\ at_ (<[(NVersions - 1)%nat := r]> rs1) (NVersions - 1) = r)
      as [Hnewv Hnewr].
    { split; apply at_insert_eq; [rewrite Hvs1 | rewrite Hrs1];
        unfold NVersions; lia. }
    split; [|split; [|split; [|split]]].
    + intros i j Hij. unfold size in Hij. cbn [hdr versions] in *.
      fold (size ln) in Hij. rewrite Hfull in Hij.
      destruct (decide (j = (NVersions - 1)%nat)) as [-> | Hne].
      * rewrite Hnewv, (proj1 (Hold i ltac:(lia))).
        pose proof (increasing_le_newest ln (i + 1) Hinc). lia.
      * rewrite (proj1 (Hold i ltac:(lia))), (proj1 (Hold j ltac:(lia))).
        apply Hinc. lia.
    + exact Hlocked.
    + reflexivity.
    + intros Hlt. fold (size ln) in Hlt. lia.
    + intros _. split; [exact Hfull|]. split; [exact Hnewv|].
      split; [exact Hnewr|]. split; [exact Hold|].
      apply (Hold 0%nat). unfold NVersions. lia.
  - (* there is room: the new version goes in slot [size] *)
    rewrite set_size_ok by lia.
    eexists. split; [reflexivity|].
    destruct (set_size_word_fields (hdr ln) (size ln + 1) Hhdr ltac:(lia))
      as (_ & Hsz & Hlk & Hver).
    assert (size (set_hdr (set_slot ln (size ln) t r)
                    (set_size_word (hdr (set_slot ln (size ln) t r)) (size ln + 1)))
            = (size ln + 1)%nat) as Hsize'.
    { unfold size at 1. simpl. rewrite Hsz. apply Nat2Z.id. }
    split; [|split; [|split; [|split]]].
    + intros i j Hij. rewrite Hsize' in Hij. simpl.
      destruct (decide (j = size ln)) as [-> | Hne].
      * rewrite at_insert_eq by lia. rewrite at_insert_ne by lia.
        pose proof (increasing_le_newest ln i Hinc). lia.
      * rewrite !at_insert_ne by lia. apply Hinc. lia.
    + unfold is_locked. simpl. rewrite Hlk. exact Hlocked.
    + simpl. exact Hver.
    + intros _. split; [exact Hsize'|]. simpl.
      rewrite !at_insert_eq by lia. repeat split; try reflexivity.
      all: rewrite at_insert_ne by lia; reflexivity.
    + intros Hfull. lia.
Qed.

Lemma write_record_at_spec_witness :
  exists ln' : logical_node,
    write_record_at full_node 100 7 = Ok ln'
    /\ strictly_increasing ln'
    /\ size ln' = NVersions
    /\ at_ (versions ln') 0 = 1 /\ at_ (values ln') 0 = 101
    /\ at_ (versions ln') 14 = 100 /\ at_ (values ln') 14 = 7.
Proof.
  destruct (write_record_at_spec full_node 100 7)
    as (ln' & Hw & Hinc & _ & _ & _ & Hfull).
  - vm_compute. split; [discriminate | reflexivity].
  - split; reflexivity.
  - reflexivity.
  - vm_compute. lia.
  - apply strictly_increasingb_sound. reflexivity.
  - vm_compute. reflexivity.
  - destruct (Hfull eq_refl) as (Hsz & Hv & Hr & _ & Hv0 & Hr0).
    exists ln'. repeat split; assumption.
Defined.

Lemma write_record_at_counterexample :
  (0 < size unlocked_node <= NVersions)%nat
  /\ strictly_increasing unlocked_node
  /\ at_ (versions unlocked_node) (size unlocked_node - 1) < 11
  /\ write_record_at unlocked_node 11 7 = InvariantViolation
  /\ ~ exists ln' : logical_node, write_record_at unlocked_node 11 7 = Ok ln'.
Proof.
  split; [vm_compute; lia|].
  split; [apply strictly_increasingb_sound; reflexivity|].
  split; [reflexivity|]. split; [reflexivity|].
  intros [ln' H]. discriminate H.
Qed.

(** ** unlock *)

Lemma unlock_eq (ln : logical_node) :
  unlock ln =
    (INVARIANT (IsLocked (hdr ln)) ;;;
     INVARIANT (negb (IsLocked (unlock_word (hdr ln)))) ;;;
     Ok (set_hdr ln (unlock_word (hdr ln)))).
Proof. reflexivity. Qed.

(** Claim C9. On a header word whose locked bit is set, [unlock()] stores
    a header whose locked bit is clear, whose stamp is the old stamp plus
    one modulo 2^59 and whose count field is unchanged; the arrays are not
    touched. On a header whose locked bit is clear it is an invariant
    violation. *)
Theorem unlock_spec (ln : logical_node) :
  in_range (hdr ln) ->
  (is_locked ln = true ->
   exists ln' : logical_node,
     unlock ln = Ok ln'
     /\ is_locked ln' = false
     /\ Version (hdr ln') = (Version (hdr ln) + 1) mod 2 ^ 59
     /\ Size (hdr ln') = Size (hdr ln)
     /\ versions ln' = versions ln /\ values ln' = values ln)
  /\ (is_locked ln = false -> unlock ln = InvariantViolation).
Proof.
  intros Hhdr. rewrite unlock_eq. unfold is_locked. split.
  - intros Hlocked.
    destruct (unlock_word_fields (hdr ln) Hhdr) as (_ & Hlk & Hver & Hsz).
    rewrite INVARIANT_true by exact Hlocked.
    rewrite INVARIANT_true by (rewrite Hlk; reflexivity).
    exists (set_hdr ln (unlock_word (hdr ln))).
    repeat split; assumption.
  - intros Hfree. apply INVARIANT_false. exact Hfree.
Qed.

Lemma unlock_spec_witness :
  in_range (hdr full_node)
  /\ is_locked full_node = true
  /\ Version (hdr full_node) = 2 ^ 59 - 1
  /\ exists ln' : logical_node,
       unlock full_node = Ok ln'
       /\ is_locked ln' = false
       /\ Version (hdr ln') = 0
       /\ Size (hdr ln') = 15.
Proof.
  assert (in_range (hdr full_node)) as Hr
    by (vm_compute; split; [discriminate | reflexivity]).
  split; [exact Hr|]. split; [reflexivity|]. split; [reflexivity|].
  destruct (proj1 (unlock_spec full_node Hr) eq_refl)
    as (ln' & Hu & Hlk & Hver & Hsz & _).
  exists ln'. split; [exact Hu|]. split; [exact Hlk|].
  split; [rewrite Hver; reflexivity | rewrite Hsz; reflexivity].
Defined.

(** ** The order of keys *)

Module KeyOrder := OrderedTypeFacts String_as_OT.

Lemma key_lt_true (x y : string) : key_lt x y = true <-> String_as_OT.lt x y.
Proof.
  unfold key_lt, String.ltb. rewrite <- String_as_OT.cmp_lt.
  unfold String_as_OT.cmp. destruct (String.compare x y); split; congruence.
Qed.

Lemma key_le_true (x y : string) : key_le x y = true <-> ~ String_as_OT.lt y x.
Proof.
  unfold key_le, String.leb. rewrite <- String_as_OT.cmp_lt.
  unfold String_as_OT.cmp. rewrite (String.compare_antisym x y).
  destruct (String.compare y x); simpl; split; congruence.
Qed.

Lemma key_lt_false (x y : string) : key_lt x y = false <-> ~ String_as_OT.lt x y.
Proof. rewrite <- key_lt_true. destruct (key_lt x y); split; congruence. Qed.

Lemma key_le_false (x y : string) : key_le x y = false <-> String_as_OT.lt y x.
Proof.
  rewrite <- key_lt_true. unfold key_le, key_lt, String.leb, String.ltb.
  rewrite (String.compare_antisym x y).
  destruct (String.compare y x); simpl; split; congruence.
Qed.

Ltac key_order :=
  repeat match goal with
    | H : key_lt _ _ = true |- _ => apply key_lt_true in H
    | H : key_lt _ _ = false |- _ => apply key_lt_false in H
    | H : key_le _ _ = true |- _ => apply key_le_true in H
    | H : key_le _ _ = false |- _ => apply key_le_false in H
    end;
  try match goal with
    | |- key_lt _ _ = true => apply key_lt_true
    | |- key_lt _ _ = false => apply key_lt_false
    | |- key_le _ _ = true => apply key_le_true
    | |- key_le _ _ = false => apply key_le_false
    end;
  KeyOrder.order.

Lemma key_lt_before (x y : string) : key_lt x y = true <-> key_before x y.
Proof. apply key_lt_true. Qed.

Lemma key_le_upto (x y : string) : key_le x y = true <-> key_upto x y.
Proof.
  unfold key_upto, key_before. split.
  - intros H. destruct (KeyOrder.lt_total x y) as [Hlt | [Heq | Hgt]].
    + right. exact Hlt.
    + left. exact Heq.
    + key_order.
  - intros [-> | Hlt]; key_order.
Qed.

(** ** key_range_t *)

Lemma key_in_range_true (r : key_range_t) (k : key_type) :
  key_range_t.key_in_range r k = true <->
  key_le (key_range_t.a r) k = true
  /\ (key_range_t.has_b r = false \/ key_lt k (key_range_t.b r) = true).
Proof.
  unfold key_range_t.key_in_range.
  rewrite andb_true_iff, orb_true_iff, negb_true_iff. reflexivity.
Qed.

(** Claim C6. [key_in_range(k)] is true exactly when [a <= k] and the
    range is unbounded or [k < b]: a range denotes [a, b), or [a, +inf)
    without upper bound. A bounded range with [a >= b] is empty for
    [is_empty_range] and holds no key. *)
Theorem key_in_range_spec (r : key_range_t) (k : key_type) :
  (key_range_t.key_in_range r k = true <->
   key_upto (key_range_t.a r) k
   /\ (key_range_t.has_b r = false \/ key_before k (key_range_t.b r)))
  /\ (key_range_t.has_b r = true ->
      key_upto (key_range_t.b r) (key_range_t.a r) ->
      key_range_t.is_empty_range r = true
      /\ key_range_t.key_in_range r k = false).
Proof.
  split.
  - rewrite key_in_range_true, key_le_upto, key_lt_before. reflexivity.
  - intros Hb Hempty. apply key_le_upto in Hempty.
    split.
    + unfold key_range_t.is_empty_range. rewrite Hb, Hempty. reflexivity.
    + apply not_true_is_false. rewrite key_in_range_true.
      intros [Hle [Hnb | Hlt]]; [congruence | key_order].
Qed.

(** Claim C7. The comparator [key_range_search_less_cmp(k, range)] is true
    exactly when the range is unbounded or [k] is strictly less than its
    upper bound [b]; its answer does not depend on the lower bound of the
    range. *)
Theorem key_range_search_less_cmp_spec (k : key_type) (range : key_range_t) :
  (key_range_search_less_cmp k range = true <->
   key_range_t.has_b range = false \/ key_before k (key_range_t.b range))
  /\ forall a' : string,
       key_range_search_less_cmp k
         (key_range_t.mk a' (key_range_t.has_b range) (key_range_t.b range))
       = key_range_search_less_cmp k range.
Proof.
  unfold key_range_search_less_cmp. split.
  - rewrite orb_true_iff, negb_true_iff, key_lt_before. reflexivity.
  - intros a'. reflexivity.
Qed.

(** Claim C10. When [r1.contains(r2)] is true, every key of [r2] is a key
    of [r1]. *)
Theorem contains_sound (r1 r2 : key_range_t) (k : key_type) :
  key_range_t.contains r1 r2 = true ->
  key_range_t.key_in_range r2 k = true ->
  key_range_t.key_in_range r1 k = true.
Proof.
  unfold key_range_t.contains. rewrite !key_in_range_true.
  destruct (key_lt (key_range_t.a r2) (key_range_t.a r1)) eqn:Ha; [discriminate|].
  intros Hc [Hle Hub]. split; [key_order|].
  destruct (key_range_t.has_b r1) eqn:Hb1; [|left; reflexivity].
  destruct (key_range_t.has_b r2) eqn:Hb2; [|discriminate].
  simpl in Hc. destruct Hub as [Hub | Hub]; [discriminate|].
  right. key_order.
Qed.

Lemma contains_sound_witness :
  key_range_t.contains
    (key_range_t.mk "b" true "p") (key_range_t.mk "c" true "k") = true
  /\ key_range_t.key_in_range (key_range_t.mk "c" true "k") "cat" = true
  /\ key_range_t.key_in_range (key_range_t.mk "b" true "p") "cat" = true.
Proof.
  split; [reflexivity|]. split; [reflexivity|].
  apply (contains_sound (key_range_t.mk "b" true "p") (key_range_t.mk "c" true "k"));
    reflexivity.
Defined.

(** ** local_search *)

(** Claim C8. Within one transaction [local_search(k)] returns the entry
    of [write_set] for [k] when there is one, whatever [read_set] holds;
    when only [read_set] has an entry it returns the value of that one; it
    returns not-found exactly when neither set has an entry for [k]. *)
Theorem local_search_spec (txn : transaction.t) (k : key_type) :
  (forall v : record_t,
     transaction.write_set txn !! k = Some v ->
     transaction.local_search txn k = Some v)
  /\ (forall rr : read_record_t,
        transaction.write_set txn !! k = None ->
        transaction.read_set txn !! k = Some rr ->
        transaction.local_search txn k = Some (read_record_t.r rr))
  /\ (transaction.local_search txn k = None <->
      transaction.write_set txn !! k = None
      /\ transaction.read_set txn !! k = None).
Proof.
  unfold transaction.local_search, transaction.local_search_str. cbv zeta.
  split; [|split].
  - intros v ->. reflexivity.
  - intros rr -> ->. reflexivity.
  - destruct (transaction.write_set txn !! k) as [v|];
      [split; [discriminate | intros [[=] _]]|].
    destruct (transaction.read_set txn !! k) as [rr|];
      [split; [discriminate | intros [_ [=]]]|].
    split; [split; reflexivity | reflexivity].
Qed.

(** ** The absent range set *)

Lemma ends_before_true (x y : key_range_t) :
  ends_before x y = true <->
  key_range_t.has_b x = true /\ key_lt (key_range_t.b x) (key_range_t.a y) = true.
Proof. unfold ends_before. apply andb_true_iff. Qed.

Lemma is_empty_range_false (x : key_range_t) :
  key_range_t.is_empty_range x = false <->
  key_range_t.has_b x = false
  \/ key_lt (key_range_t.a x) (key_range_t.b x) = true.
Proof.
  unfold key_range_t.is_empty_range. rewrite andb_false_iff.
  split; (intros [H | H]; [left; exact H | right; key_order]).
Qed.

(** Case analysis on every comparison of keys in the goal, closing each
    case by computation or by the order of keys. *)
Ltac compare_cases :=
  repeat match goal with
    | |- context [key_le ?x ?y] =>
        let E := fresh "E" in destruct (key_le x y) eqn:E; simpl
    | |- context [key_lt ?x ?y] =>
        let E := fresh "E" in destruct (key_lt x y) eqn:E; simpl
    end;
  intros; try reflexivity; try congruence; try (exfalso; key_order).

Lemma merge_ranges_key_in_range (r x : key_range_t) (k : key_type) :
  key_range_t.is_empty_range r = false ->
  key_range_t.is_empty_range x = false ->
  ends_before x r = false ->
  ends_before r x = false ->
  key_range_t.key_in_range (merge_ranges r x) k
  = key_range_t.key_in_range r k || key_range_t.key_in_range x k.
Proof.
  destruct r as [ar hr br], x as [ax hx bx].
  unfold key_range_t.is_empty_range, ends_before, merge_ranges,
    key_range_t.key_in_range, key_min, key_max. simpl.
  intros Hr Hx Hxr Hrx.
  destruct (key_le ar ax) eqn:Emin, (key_le br bx) eqn:Emax;
    destruct hr, hx; simpl in *; revert Hr Hx Hxr Hrx; compare_cases.
Qed.

Lemma merge_ranges_nonempty (r x : key_range_t) :
  key_range_t.is_empty_range r = false ->
  key_range_t.is_empty_range (merge_ranges r x) = false.
Proof.
  destruct r as [ar hr br], x as [ax hx bx].
  unfold key_range_t.is_empty_range, merge_ranges, key_min, key_max. simpl.
  intros Hr.
  destruct (key_le ar ax) eqn:Emin, (key_le br bx) eqn:Emax;
    destruct hr, hx; simpl in *; revert Hr; compare_cases.
Qed.

Lemma merge_ranges_lower (c : string) (r x : key_range_t) :
  key_lt c (key_range_t.a r) = true ->
  key_lt c (key_range_t.a x) = true ->
  key_lt c (key_range_t.a (merge_ranges r x)) = true.
Proof.
  unfold merge_ranges, key_min. simpl. intros Hr Hx.
  destruct (key_le (key_range_t.a r) (key_range_t.a x)); assumption.
Qed.

(** Every range of the set after an insertion starts where the inserted
    range or some range of the set before did. *)
Lemma insert_range_lower (c : string) (range : key_range_t) (l : list key_range_t) :
  key_lt c (key_range_t.a range) = true ->
  Forall (fun y => key_lt c (key_range_t.a y) = true) l ->
  Forall (fun y => key_lt c (key_range_t.a y) = true) (insert_range range l).
Proof.
  revert range. induction l as [|x l IH]; intros range Hrange Hl; simpl.
  - constructor; [exact Hrange | constructor].
  - apply Forall_cons in Hl as [Hx Hl].
    destruct (ends_before x range).
    { constructor; [exact Hx | apply IH; assumption]. }
    destruct (key_range_t.contains x range).
    { constructor; assumption. }
    destruct (ends_before range x).
    { constructor; [exact Hrange | constructor; assumption]. }
    apply IH; [apply merge_ranges_lower; assumption | exact Hl].
Qed.

Lemma insert_range_inv (range : key_range_t) (l : list key_range_t) :
  key_range_t.is_empty_range range = false ->
  range_set_inv l ->
  range_set_inv (insert_range range l).
Proof.
  revert range. induction l as [|x l IH]; intros range Hne Hinv; simpl.
  - repeat split; [exact Hne | constructor].
  - destruct Hinv as (Hx & Hafter & Hinv).
    destruct (ends_before x range) eqn:Hxr.
    { simpl. split; [exact Hx|]. split; [|apply IH; assumption].
      apply ends_before_true in Hxr as [Hb Hlt].
      eapply Forall_impl.
      - apply (insert_range_lower (key_range_t.b x) range l Hlt).
        eapply Forall_impl; [exact Hafter|].
        intros y Hy. apply ends_before_true in Hy. tauto.
      - intros y Hy. apply ends_before_true. split; assumption. }
    destruct (key_range_t.contains x range).
    { simpl. repeat split; assumption. }
    destruct (ends_before range x) eqn:Hrx.
    { simpl. split; [exact Hne|]. split; [|repeat split; assumption].
      constructor; [exact Hrx|].
      eapply Forall_impl; [exact Hafter|].
      intros y Hy. apply ends_before_true in Hrx as [Hb Hlt].
      apply ends_before_true in Hy as [Hb' Hlt'].
      apply ends_before_true. split; [exact Hb|].
      apply is_empty_range_false in Hx as [Hx | Hx]; [congruence|].
      key_order. }
    apply IH; [apply merge_ranges_nonempty; exact Hne | exact Hinv].
Qed.

Lemma covers_nil (k : key_type) : covers [] k <-> False.
Proof. unfold covers. split; [intros (x & Hx & _) | tauto]. inversion Hx. Qed.

Lemma covers_cons (x : key_range_t) (l : list key_range_t) (k : key_type) :
  covers (x :: l) k <-> key_range_t.key_in_range x k = true \/ covers l k.
Proof.
  unfold covers. split.
  - intros (y & Hy & Hk). apply elem_of_cons in Hy as [-> | Hy].
    + left. exact Hk.
    + right. exists y. split; assumption.
  - intros [Hk | (y & Hy & Hk)].
    + exists x. split; [apply list_elem_of_here | exact Hk].
    + exists y. split; [apply list_elem_of_further, Hy | exact Hk].
Qed.

Lemma insert_range_covers (range : key_range_t) (l : list key_range_t) (k : key_type) :
  key_range_t.is_empty_range range = false ->
  range_set_inv l ->
  covers (insert_range range l) k <->
  key_range_t.key_in_range range k = true \/ covers l k.
Proof.
  revert range. induction l as [|x l IH]; intros range Hne Hinv; simpl.
  - rewrite covers_cons. reflexivity.
  - destruct Hinv as (Hx & Hafter & Hinv).
    destruct (ends_before x range) eqn:Hxr.
    { rewrite !covers_cons, IH by assumption. tauto. }
    destruct (key_range_t.contains x range) eqn:Hc.
    { rewrite covers_cons. split; [tauto|].
      intros [Hk | H]; [|exact H]. left.
      revert Hc Hk. destruct x as [ax hx bx], range as [ar hr br].
      unfold key_range_t.contains, key_range_t.key_in_range. simpl.
      destruct hx, hr; simpl; compare_cases. }
    destruct (ends_before range x) eqn:Hrx.
    { rewrite !covers_cons. reflexivity. }
    rewrite IH by (try apply merge_ranges_nonempty; assumption).
    rewrite covers_cons, merge_ranges_key_in_range by assumption.
    rewrite orb_true_iff. tauto.
Qed.

Lemma add_absent_range_inv (l : list key_range_t) (range : key_range_t) :
  range_set_inv l -> range_set_inv (add_absent_range l range).
Proof.
  intros Hinv. unfold add_absent_range.
  destruct (key_range_t.is_empty_range range) eqn:He; [exact Hinv|].
  apply insert_range_inv; assumption.
Qed.

Lemma empty_range_no_key (range : key_range_t) (k : key_type) :
  key_range_t.is_empty_range range = true ->
  key_range_t.key_in_range range k = false.
Proof.
  destruct range as [ar hr br].
  unfold key_range_t.is_empty_range, key_range_t.key_in_range. simpl.
  destruct hr; simpl; compare_cases.
Qed.

Lemma add_absent_range_covers (l : list key_range_t) (range : key_range_t) (k : key_type) :
  range_set_inv l ->
  covers (add_absent_range l range) k <->
  covers l k \/ key_range_t.key_in_range range k = true.
Proof.
  intros Hinv. unfold add_absent_range.
  destruct (key_range_t.is_empty_range range) eqn:He.
  - rewrite (empty_range_no_key range k He). split; [tauto|].
    intros [H | H]; [exact H | discriminate].
  - rewrite insert_range_covers by assumption. tauto.
Qed.

Lemma fold_add_absent_range (ranges : list key_range_t) (l : list key_range_t) :
  range_set_inv l ->
  range_set_inv (fold_left add_absent_range ranges l)
  /\ forall k : key_type,
       covers (fold_left add_absent_range ranges l) k <->
       covers l k \/ covers ranges k.
Proof.
  revert l. induction ranges as [|range ranges IH]; intros l Hinv; simpl.
  - split; [exact Hinv|]. intros k. rewrite covers_nil. tauto.
  - destruct (IH (add_absent_range l range) (add_absent_range_inv l range Hinv))
      as [Hinv' Hcov].
    split; [exact Hinv'|]. intros k.
    rewrite Hcov, add_absent_range_covers, covers_cons by exact Hinv. tauto.
Qed.

(** *** The binary search *)

Section UpperBound.

Variable comp : key_type -> key_range_t -> bool.
Variable l : list key_range_t.
Variable value : key_type.

(** The sequence is partitioned: once [comp value] holds it holds for
    ever. *)
Hypothesis partitioned :
  forall (i j : nat) (x y : key_range_t),
    (i <= j)%nat -> l !! i = Some x -> l !! j = Some y ->
    comp value x = true -> comp value y = true.

Lemma upper_bound_loop_spec (fuel first count : nat) :
  (count <= fuel)%nat ->
  (first + count <= length l)%nat ->
  (forall (i : nat) (x : key_range_t),
     (i < first)%nat -> l !! i = Some x -> comp value x = false) ->
  (forall (i : nat) (x : key_range_t),
     (first + count <= i)%nat -> l !! i = Some x -> comp value x = true) ->
  (first <= upper_bound_loop comp l value fuel first count <= first + count)%nat
  /\ forall (i : nat) (x : key_range_t), l !! i = Some x ->
       (comp value x = true <->
        (upper_bound_loop comp l value fuel first count <= i)%nat).
Proof.
  revert first count.
  induction fuel as [|fuel IH]; intros first count Hfuel Hlen Hbelow Habove.
  - assert (count = 0%nat) as -> by lia. simpl. split; [lia|].
    intros i x Hi. split.
    + intros Hc. destruct (Nat.le_gt_cases first i) as [Hle | Hgt]; [exact Hle|].
      rewrite (Hbelow i x Hgt Hi) in Hc. discriminate.
    + intros Hle. apply (Habove i x); [lia | exact Hi].
  - cbn [upper_bound_loop]. destruct (Nat.eqb_spec count 0) as [-> | Hpos].
    { split; [lia|]. intros i x Hi. split.
      - intros Hc. destruct (Nat.le_gt_cases first i) as [Hle | Hgt]; [exact Hle|].
        rewrite (Hbelow i x Hgt Hi) in Hc. discriminate.
      - intros Hle. apply (Habove i x); [lia | exact Hi]. }
    assert (count / 2 < count)%nat as Hstep
      by (apply Nat.div_lt; lia).
    destruct (lookup_lt_is_Some_2 l (first + count / 2)%nat ltac:(lia))
      as [x Hx].
    rewrite Hx. destruct (comp value x) eqn:Hc; cbn [negb].
    + destruct (IH first (count / 2)%nat) as [Hrange Hiff];
        [lia | lia | exact Hbelow | |].
      { intros i y Hi Hy.
        apply (partitioned (first + count / 2)%nat i x y); try assumption. }
      split; [lia | exact Hiff].
    + destruct (IH (first + count / 2 + 1)%nat (count - (count / 2 + 1))%nat)
        as [Hrange Hiff]; [lia | lia | | |].
      { intros i y Hi Hy. destruct (comp value y) eqn:Hcy; [|reflexivity].
        rewrite <- Hc. symmetry.
        apply (partitioned i (first + count / 2)%nat y x); try assumption. lia. }
      { intros i y Hi Hy. apply (Habove i y); [lia | exact Hy]. }
      split; [lia | exact Hiff].
Qed.

Lemma upper_bound_spec :
  (upper_bound comp l value <= length l)%nat
  /\ forall (i : nat) (x : key_range_t), l !! i = Some x ->
       (comp value x = true <-> (upper_bound comp l value <= i)%nat).
Proof.
  unfold upper_bound.
  destruct (upper_bound_loop_spec (length l) 0 (length l)) as [Hrange Hiff].
  - lia.
  - lia.
  - intros i x Hi. lia.
  - intros i x Hi Hx. apply lookup_lt_Some in Hx. lia.
  - split; [lia | exact Hiff].
Qed.

End UpperBound.

Lemma range_set_inv_lookup (l : list key_range_t) (i j : nat) (x y : key_range_t) :
  range_set_inv l -> (i < j)%nat ->
  l !! i = Some x -> l !! j = Some y ->
  ends_before x y = true.
Proof.
  revert i j. induction l as [|z l IH]; intros i j Hinv Hij Hx Hy; [discriminate|].
  destruct Hinv as (_ & Hafter & Hinv).
  destruct j as [|j]; [lia|]. simpl in Hy.
  destruct i as [|i].
  - injection Hx as ->. rewrite Forall_forall in Hafter.
    apply Hafter. eapply list_elem_of_lookup_2. exact Hy.
  - simpl in Hx. apply (IH i j); [exact Hinv | lia | exact Hx | exact Hy].
Qed.

Lemma range_set_inv_nonempty (l : list key_range_t) (x : key_range_t) :
  range_set_inv l -> x ∈ l -> key_range_t.is_empty_range x = false.
Proof.
  induction l as [|z l IH]; intros Hinv Hx; [inversion Hx|].
  destruct Hinv as (Hz & _ & Hinv).
  apply elem_of_cons in Hx as [-> | Hx]; [exact Hz | apply IH; assumption].
Qed.

Lemma search_partitioned (l : list key_range_t) (k : key_type) :
  range_set_inv l ->
  forall (i j : nat) (x y : key_range_t),
    (i <= j)%nat -> l !! i = Some x -> l !! j = Some y ->
    key_range_search_less_cmp k x = true ->
    key_range_search_less_cmp k y = true.
Proof.
  intros Hinv i j x y Hij Hx Hy Hc.
  destruct (decide (i = j)) as [-> | Hne]; [congruence|].
  pose proof (range_set_inv_lookup l i j x y Hinv ltac:(lia) Hx Hy) as Hxy.
  pose proof (range_set_inv_nonempty l y Hinv (list_elem_of_lookup_2 _ _ _ Hy)) as Hne'.
  revert Hc Hxy Hne'. destruct x as [ax hx bx], y as [ay hy By].
  unfold key_range_search_less_cmp, ends_before, key_range_t.is_empty_range. simpl.
  destruct hx, hy; simpl; compare_cases.
Qed.

Lemma key_in_absent_set_covers (l : list key_range_t) (k : key_type) :
  range_set_inv l ->
  key_in_absent_set l k = true <-> covers l k.
Proof.
  intros Hinv. unfold key_in_absent_set.
  destruct (upper_bound_spec key_range_search_less_cmp l k
              (search_partitioned l k Hinv)) as [Hlen Hiff].
  split.
  - destruct (l !! upper_bound key_range_search_less_cmp l k) as [x|] eqn:Hx;
      [|discriminate].
    intros Hk. exists x. split; [|exact Hk].
    eapply list_elem_of_lookup_2. exact Hx.
  - intros (x & Hx & Hk). apply list_elem_of_lookup_1 in Hx as [j Hj].
    assert (key_range_search_less_cmp k x = true) as Hc.
    { revert Hk. destruct x as [ax hx bx].
      unfold key_range_search_less_cmp, key_range_t.key_in_range. simpl.
      destruct hx; simpl; compare_cases. }
    pose proof (proj1 (Hiff j x Hj) Hc) as Hle.
    remember (upper_bound key_range_search_less_cmp l k) as idx eqn:Eidx.
    destruct (decide (idx = j)) as [-> | Hne].
    { rewrite Hj. exact Hk. }
    assert (idx < j)%nat as Hlt by lia.
    destruct (lookup_lt_is_Some_2 l idx) as [x' Hx'].
    { apply lookup_lt_Some in Hj. lia. }
    exfalso.
    pose proof (proj2 (Hiff idx x' Hx') (Nat.le_refl idx)) as Hc'.
    pose proof (range_set_inv_lookup l idx j x' x Hinv Hlt Hx' Hj) as Hbefore.
    revert Hc' Hbefore Hk. destruct x as [ax hx bx], x' as [ax' hx' bx'].
    unfold key_range_search_less_cmp, ends_before, key_range_t.key_in_range. simpl.
    destruct hx, hx'; simpl; compare_cases.
Qed.

Lemma range_set_inv_valid (l : list key_range_t) :
  range_set_inv l -> valid_range_set l = true.
Proof.
  induction l as [|x l IH]; intros Hinv; [reflexivity|].
  destruct Hinv as (Hx & Hafter & Hinv). cbn [valid_range_set].
  rewrite Hx, (IH Hinv). destruct l as [|y l]; [reflexivity|].
  apply Forall_cons in Hafter as [Hxy _].
  apply ends_before_true in Hxy as [-> Hlt].
  replace (key_le (key_range_t.b x) (key_range_t.a y)) with true;
    [reflexivity | symmetry; key_order].
Qed.

(** Claim C5. The set built from the empty one by any sequence of
    [add_absent_range] calls passes the validity check and is sorted and
    pairwise disjoint: of two ranges the earlier one starts first, is
    bounded and ends no later than the other starts, so that no key is in
    both. [key_in_absent_set] is true exactly for the keys of some input
    range, hence false for every key outside all input ranges. *)
Theorem absent_range_set_spec (ranges : list key_range_t) :
  let set := fold_left add_absent_range ranges [] in
  valid_range_set set = true
  /\ (forall (i j : nat) (x y : key_range_t),
        (i < j)%nat -> set !! i = Some x -> set !! j = Some y ->
        key_before (key_range_t.a x) (key_range_t.a y)
        /\ key_range_t.has_b x = true
        /\ key_upto (key_range_t.b x) (key_range_t.a y)
        /\ forall k : key_type,
             ~ (key_range_t.key_in_range x k = true
                /\ key_range_t.key_in_range y k = true))
  /\ (forall k : key_type,
        key_in_absent_set set k = true <->
        exists r : key_range_t,
          r ∈ ranges /\ key_range_t.key_in_range r k = true)
  /\ (forall k : key_type,
        (forall r : key_range_t,
           r ∈ ranges -> key_range_t.key_in_range r k = false) ->
        key_in_absent_set set k = false).
Proof.
  intros set.
  destruct (fold_add_absent_range ranges [] I) as [Hinv Hcov]. fold set in Hinv, Hcov.
  assert (forall k : key_type, key_in_absent_set set k = true <-> covers ranges k)
    as Hsearch.
  { intros k. rewrite key_in_absent_set_covers, Hcov, covers_nil by exact Hinv.
    tauto. }
  split; [apply range_set_inv_valid, Hinv|]. split; [|split].
  - intros i j x y Hij Hx Hy.
    pose proof (range_set_inv_lookup set i j x y Hinv Hij Hx Hy) as Hxy.
    pose proof (range_set_inv_nonempty set x Hinv (list_elem_of_lookup_2 _ _ _ Hx))
      as Hne.
    apply ends_before_true in Hxy as [Hb Hlt].
    apply is_empty_range_false in Hne as [Hne | Hne]; [congruence|].
    split; [apply key_lt_before; key_order|]. split; [exact Hb|].
    split; [apply key_le_upto; key_order|].
    intros k [Hkx Hky].
    apply key_in_range_true in Hkx as [_ [Hkx | Hkx]]; [congruence|].
    apply key_in_range_true in Hky as [Hky _]. key_order.
  - exact Hsearch.
  - intros k Hout. apply not_true_is_false. rewrite Hsearch.
    intros (r & Hr & Hk). rewrite (Hout r Hr) in Hk. discriminate.
Qed.

(* ===================================================================== *)
(** * Further properties *)
(* ===================================================================== *)

(** ** More on the header word *)

(** Extra X1. The header word is the stamp, the count and the locked bit
    side by side: a 64-bit word is [Version * 32 + Size * 2 + locked], with
    the stamp below 2^59 and the count at most [NVersions]; and a word built
    from three such fields decodes to them. *)
Theorem header_layout (v : Z) :
  in_range v ->
  v = Version v * 32 + Size v * 2 + Z.b2z (IsLocked v)
  /\ 0 <= Version v < 2 ^ 59
  /\ 0 <= Size v <= Z.of_nat NVersions
  /\ forall (s c : Z) (l : bool),
       0 <= s < 2 ^ 59 -> 0 <= c <= 15 ->
       v = s * 32 + c * 2 + Z.b2z l ->
       Version v = s /\ Size v = c /\ IsLocked v = l.
Proof.
  unfold in_range, modulus, NVersions. intros Hv.
  rewrite IsLocked_mod, Version_div, Size_div.
  assert (Z.b2z (v mod 2 =? 1) = v mod 2) as Hbit.
  { pose proof (Z.mod_pos_bound v 2 ltac:(lia)).
    destruct (Z.eqb_spec (v mod 2) 1) as [-> | Hne]; simpl; lia. }
  rewrite Hbit. split; [|split; [|split]].
  - Z.div_mod_to_equations. lia.
  - apply Z.mod_pos_bound. lia.
  - pose proof (Z.mod_pos_bound (v / 2) 16 ltac:(lia)). lia.
  - intros s c l Hs Hc ->.
    assert (0 <= Z.b2z l <= 1) as Hl by (destruct l; simpl; lia).
    repeat split.
    + Z.div_mod_to_equations. lia.
    + Z.div_mod_to_equations. lia.
    + destruct l; simpl in *.
      * apply Z.eqb_eq. Z.div_mod_to_equations. lia.
      * apply Z.eqb_neq. Z.div_mod_to_equations. lia.
Qed.

Lemma in_range_of_fields : in_range (5 * 32 + 3 * 2 + 1).
Proof. vm_compute. split; [discriminate | reflexivity]. Qed.

Lemma header_layout_witness :
  in_range 167
  /\ Version 167 = 5 /\ Size 167 = 3 /\ IsLocked 167 = true.
Proof.
  assert (in_range 167) as Hr by (vm_compute; split; [discriminate | reflexivity]).
  split; [exact Hr|].
  destruct (header_layout 167 Hr) as (_ & _ & _ & Hdec).
  apply (Hdec 5 3 true); [lia | lia | reflexivity].
Defined.

(** Extra X2. [set_size(n)] followed by [size()] gives [n] back for every
    [n <= NVersions], and changes neither the locked bit nor the stamp nor
    the arrays; for a larger [n] it is an invariant violation. *)
Theorem set_size_spec (ln : logical_node) (n : nat) :
  in_range (hdr ln) ->
  ((n <= NVersions)%nat ->
   exists ln' : logical_node,
     set_size ln n = Ok ln'
     /\ size ln' = n
     /\ in_range (hdr ln')
     /\ is_locked ln' = is_locked ln
     /\ Version (hdr ln') = Version (hdr ln)
     /\ versions ln' = versions ln /\ values ln' = values ln)
  /\ ((NVersions < n)%nat -> set_size ln n = InvariantViolation).
Proof.
  intros Hhdr. split.
  - intros Hn. rewrite set_size_ok by exact Hn.
    destruct (set_size_word_fields (hdr ln) n Hhdr Hn) as (Hr & Hsz & Hlk & Hver).
    exists (set_hdr ln (set_size_word (hdr ln) n)). split; [reflexivity|].
    unfold size, is_locked. cbn [set_hdr hdr versions values].
    split; [rewrite Hsz; apply Nat2Z.id|].
    split; [exact Hr|]. split; [exact Hlk|]. split; [exact Hver|].
    split; reflexivity.
  - intros Hn. unfold set_size. apply INVARIANT_false.
    apply Nat.leb_gt. exact Hn.
Qed.

Lemma set_size_spec_witness :
  in_range (hdr sample_node)
  /\ exists ln' : logical_node,
       set_size sample_node 9 = Ok ln' /\ size ln' = 9%nat
       /\ is_locked ln' = true.
Proof.
  assert (in_range (hdr sample_node)) as Hr
    by (vm_compute; split; [discriminate | reflexivity]).
  split; [exact Hr|].
  destruct (proj1 (set_size_spec sample_node 9 Hr)) as (ln' & Hs & Hsz & _ & Hlk & _).
  - unfold NVersions. lia.
  - exists ln'. repeat split; assumption.
Defined.

(** ** lock and the write cycle *)

Lemma lock_word_fields (v : Z) :
  in_range v -> IsLocked v = false ->
  in_range (Z.lor v HDR_LOCKED_MASK)
  /\ Z.lor v HDR_LOCKED_MASK = v + 1
  /\ IsLocked (Z.lor v HDR_LOCKED_MASK) = true
  /\ Version (Z.lor v HDR_LOCKED_MASK) = Version v
  /\ Size (Z.lor v HDR_LOCKED_MASK) = Size v.
Proof.
  intros Hv Hfree. rewrite IsLocked_mod in Hfree. apply Z.eqb_neq in Hfree.
  assert (Z.lor v HDR_LOCKED_MASK = v + 1) as ->.
  { change HDR_LOCKED_MASK with 1.
    pose proof (Z.add_lor_land v 1) as Hadd.
    change 1 with (Z.ones 1) in Hadd at 2. rewrite Z.land_ones in Hadd by lia.
    change (2 ^ 1) with 2 in Hadd.
    pose proof (Z.mod_pos_bound v 2 ltac:(lia)). lia. }
  rewrite IsLocked_mod, !Version_div, !Size_div.
  unfold in_range, modulus in *.
  repeat split.
  - lia.
  - Z.div_mod_to_equations. lia.
  - apply Z.eqb_eq. Z.div_mod_to_equations. lia.
  - f_equal. Z.div_mod_to_equations. lia.
  - f_equal. Z.div_mod_to_equations. lia.
Qed.

(** Extra X3. With no other thread at work, [lock()] on a free node sets
    the locked bit and nothing else, so the header differs from the one
    captured before; on a node that is already locked it never returns. *)
Theorem lock_spec (ln : logical_node) :
  in_range (hdr ln) ->
  (is_locked ln = false ->
   exists ln' : logical_node,
     lock ln = Some ln'
     /\ is_locked ln' = true
     /\ size ln' = size ln
     /\ Version (hdr ln') = Version (hdr ln)
     /\ versions ln' = versions ln /\ values ln' = values ln
     /\ check_version ln' (hdr ln) = false)
  /\ (is_locked ln = true -> lock ln = None).
Proof.
  intros Hhdr. unfold lock, is_locked. split.
  - intros Hfree. rewrite Hfree.
    destruct (lock_word_fields (hdr ln) Hhdr Hfree) as (_ & Hadd & Hlk & Hver & Hsz).
    eexists. split; [reflexivity|].
    unfold size, check_version. cbn [set_hdr hdr versions values].
    rewrite Hsz. repeat split; try assumption.
    apply Z.eqb_neq. lia.
  - intros ->. reflexivity.
Qed.

Lemma lock_spec_witness :
  in_range (hdr unlocked_node)
  /\ is_locked unlocked_node = false
  /\ exists ln' : logical_node,
       lock unlocked_node = Some ln'
       /\ is_locked ln' = true /\ size ln' = size unlocked_node.
Proof.
  assert (in_range (hdr unlocked_node)) as Hr
    by (vm_compute; split; [discriminate | reflexivity]).
  split; [exact Hr|]. split; [reflexivity|].
  destruct (proj1 (lock_spec unlocked_node Hr) eq_refl)
    as (ln' & Hl & Hlk & Hsz & _).
  exists ln'. repeat split; assumption.
Defined.

(** Extra X4. A [lock()] followed by [unlock()] leaves the node unlocked
    with the same count and arrays and a stamp one larger modulo 2^59: the
    header word captured before the cycle fails [check_version] during the
    cycle and after it. *)
Theorem lock_unlock_cycle (ln : logical_node) :
  in_range (hdr ln) ->
  is_locked ln = false ->
  exists ln1 ln2 : logical_node,
    lock ln = Some ln1
    /\ unlock ln1 = Ok ln2
    /\ is_locked ln2 = false
    /\ Version (hdr ln2) = (Version (hdr ln) + 1) mod 2 ^ 59
    /\ size ln2 = size ln
    /\ versions ln2 = versions ln /\ values ln2 = values ln
    /\ check_version ln1 (hdr ln) = false
    /\ check_version ln2 (hdr ln) = false.
Proof.
  intros Hhdr Hfree. unfold lock. unfold is_locked in Hfree. rewrite Hfree.
  destruct (lock_word_fields (hdr ln) Hhdr Hfree) as (Hr1 & Hadd & Hlk1 & Hver1 & Hsz1).
  destruct (unlock_word_fields _ Hr1) as (Hr2 & Hlk2 & Hver2 & Hsz2).
  eexists. eexists. split; [reflexivity|].
  rewrite unlock_eq. cbn [set_hdr hdr versions values].
  rewrite INVARIANT_true by exact Hlk1.
  rewrite INVARIANT_true by (rewrite Hlk2; reflexivity).
  split; [reflexivity|].
  unfold is_locked, size, check_version. cbn [set_hdr hdr versions values].
  rewrite Hver2, Hver1, Hsz2, Hsz1.
  split; [exact Hlk2|]. split; [reflexivity|]. split; [reflexivity|].
  split; [reflexivity|]. split; [reflexivity|].
  split; apply Z.eqb_neq.
  - lia.
  - intros Heq. apply (f_equal Version) in Heq. rewrite Hver2, Hver1 in Heq.
    pose proof (Z.mod_pos_bound (hdr ln / 32) (2 ^ 59) ltac:(lia)) as Hb.
    rewrite Version_div in Heq. revert Heq Hb.
    generalize ((hdr ln / 32) mod 2 ^ 59). intros V Heq Hb.
    Z.div_mod_to_equations. lia.
Qed.

Lemma lock_unlock_cycle_witness :
  exists ln1 ln2 : logical_node,
    lock unlocked_node = Some ln1 /\ unlock ln1 = Ok ln2
    /\ Version (hdr ln2) = 1
    /\ check_version ln2 (hdr unlocked_node) = false.
Proof.
  destruct (lock_unlock_cycle unlocked_node)
    as (ln1 & ln2 & Hl & Hu & _ & Hver & _ & _ & _ & _ & Hchk).
  - vm_compute. split; [discriminate | reflexivity].
  - reflexivity.
  - exists ln1, ln2. repeat split; assumption.
Defined.

(** ** The chain after a write *)

(** The node [write_record_at] stores: [d] is 1 when the chain was full and
    the oldest entry was dropped, 0 otherwise. *)
Lemma write_record_at_result (ln : logical_node) (t : tid_t) (r : record_t) :
  in_range (hdr ln) -> array_shape ln ->
  is_locked ln = true ->
  (0 < size ln <= NVersions)%nat ->
  at_ (versions ln) (size ln - 1) < t ->
  exists (ln' : logical_node) (d : nat),
    write_record_at ln t r = Ok ln'
    /\ d = (if decide (size ln = NVersions) then 1 else 0)%nat
    /\ (size ln' + d = size ln + 1)%nat
    /\ in_range (hdr ln') /\ array_shape ln'
    /\ is_locked ln' = true
    /\ Version (hdr ln') = Version (hdr ln)
    /\ at_ (versions ln') (size ln' - 1) = t
    /\ at_ (values ln') (size ln' - 1) = r
    /\ forall j : nat, (j < size ln' - 1)%nat ->
         at_ (versions ln') j = at_ (versions ln) (j + d)
         /\ at_ (values ln') j = at_ (values ln) (j + d).
Proof.
  intros Hhdr [Hvs Hrs] Hlocked Hn Ht. unfold write_record_at.
  rewrite INVARIANT_true by exact Hlocked.
  rewrite INVARIANT_true by (apply size_check; exact Hn).
  rewrite INVARIANT_true by (apply Z.ltb_lt; exact Ht).
  destruct (Nat.eqb_spec (size ln) NVersions) as [Hfull | Hroom].
  - destruct (shift_down_all ln (conj Hvs Hrs)) as (Hhdr1 & [Hvs1 Hrs1] & Hshift).
    remember (shift_down ln 0 (NVersions - 1)) as ln1 eqn:Eln1. clear Eln1.
    exists (set_slot ln1 (NVersions - 1) t r), 1%nat. split; [reflexivity|].
    rewrite decide_True by exact Hfull. split; [reflexivity|].
    destruct ln1 as [h1 vs1 rs1]. unfold set_slot, is_locked, size, array_shape.
    cbn [hdr versions values] in *. subst h1. fold (size ln). rewrite Hfull.
    split; [lia|]. split; [exact Hhdr|].
    split; [rewrite !length_insert; split; assumption|].
    split; [exact Hlocked|]. split; [reflexivity|].
    split; [apply at_insert_eq; rewrite Hvs1; unfold NVersions; lia|].
    split; [apply at_insert_eq; rewrite Hrs1; unfold NVersions; lia|].
    intros j Hj. rewrite !at_insert_ne by lia. apply Hshift, Hj.
  - rewrite set_size_ok by lia.
    destruct (set_size_word_fields (hdr ln) (size ln + 1) Hhdr ltac:(lia))
      as (Hr' & Hsz & Hlk & Hver).
    assert (size (set_hdr (set_slot ln (size ln) t r)
                    (set_size_word (hdr (set_slot ln (size ln) t r)) (size ln + 1)))
            = (size ln + 1)%nat) as Hsize'.
    { unfold size at 1. cbn [set_hdr set_slot hdr]. rewrite Hsz. apply Nat2Z.id. }
    eexists. exists 0%nat. split; [reflexivity|].
    rewrite decide_False by exact Hroom. split; [reflexivity|].
    rewrite Hsize'. unfold is_locked, array_shape.
    cbn [set_hdr set_slot hdr versions values].
    split; [lia|]. split; [exact Hr'|].
    split; [rewrite !length_insert; split; assumption|].
    split; [rewrite Hlk; exact Hlocked|]. split; [exact Hver|].
    replace (size ln + 1 - 1)%nat with (size ln) by lia.
    split; [apply at_insert_eq; lia|]. split; [apply at_insert_eq; lia|].
    intros j Hj. rewrite !at_insert_ne by lia.
    replace (j + 0)%nat with j by lia. split; reflexivity.
Qed.

Lemma record_at_loop_at (ln : logical_node) (t : tid_t) (k i : nat) :
  (i < k)%nat ->
  at_ (versions ln) i <= t ->
  (forall j : nat, (i < j < k)%nat -> t < at_ (versions ln) j) ->
  record_at_loop ln t k = Some (at_ (versions ln) i, at_ (values ln) i).
Proof.
  induction k as [|k IH]; intros Hi Hle Hnewer; [lia|]. simpl.
  destruct (Z.leb_spec (at_ (versions ln) k) t) as [Hk | Hk].
  - destruct (decide (i = k)) as [-> | Hne]; [reflexivity|].
    specialize (Hnewer k). lia.
  - assert (i <> k) by (intros ->; lia).
    apply IH; [lia | exact Hle | intros j Hj; apply Hnewer; lia].
Qed.

Lemma record_at_loop_shift (ln ln' : logical_node) (t : tid_t) (d k : nat) :
  (forall j : nat, (j < k)%nat ->
     at_ (versions ln') j = at_ (versions ln) (j + d)
     /\ at_ (values ln') j = at_ (values ln) (j + d)) ->
  d = 0%nat \/ ((0 < k)%nat /\ at_ (versions ln) d <= t) ->
  record_at_loop ln' t k = record_at_loop ln t (k + d).
Proof.
  induction k as [|k IH]; intros Hslots Hd.
  - destruct Hd as [-> | [Hk _]]; [reflexivity | lia].
  - cbn [record_at_loop Nat.add].
    destruct (Hslots k ltac:(lia)) as [-> ->].
    destruct (Z.leb_spec (at_ (versions ln) (k + d)) t) as [Hhit | Hmiss];
      [reflexivity|].
    apply IH; [intros j Hj; apply Hslots; lia|].
    destruct Hd as [-> | [_ Hle]]; [left; reflexivity | right].
    split; [|exact Hle].
    destruct k as [|k]; [simpl in Hmiss; lia | lia].
Qed.

Lemma record_at_ok (ln : logical_node) (t : tid_t) :
  (0 < size ln <= NVersions)%nat ->
  record_at ln t = Ok (record_at_loop ln t (size ln)).
Proof.
  intros Hn. unfold record_at.
  rewrite INVARIANT_true by (apply size_check; exact Hn). reflexivity.
Qed.

(** Extra X6. After [write_record_at(t, r)] a read at any timestamp from
    [t] on returns [(t, r)]; a read at an earlier timestamp returns what it
    returned before the write, unless the chain was full and the version it
    needs is the evicted one: below the second oldest timestamp of before,
    the read now finds nothing. *)
Theorem record_at_after_write (ln : logical_node) (t : tid_t) (r : record_t) :
  in_range (hdr ln) -> array_shape ln ->
  is_locked ln = true ->
  (0 < size ln <= NVersions)%nat ->
  strictly_increasing ln ->
  at_ (versions ln) (size ln - 1) < t ->
  exists ln' : logical_node,
    write_record_at ln t r = Ok ln'
    /\ (forall t' : tid_t, t <= t' -> record_at ln' t' = Ok (Some (t, r)))
    /\ (forall t' : tid_t, t' < t ->
          (size ln < NVersions)%nat \/ at_ (versions ln) 1 <= t' ->
          record_at ln' t' = record_at ln t')
    /\ (forall t' : tid_t,
          size ln = NVersions -> t' < at_ (versions ln) 1 ->
          record_at ln' t' = Ok None).
Proof.
  intros Hhdr Hshape Hlocked Hn Hinc Ht.
  destruct (write_record_at_result ln t r Hhdr Hshape Hlocked Hn Ht)
    as (ln' & d & Hw & Hd & Hsz & _ & _ & _ & _ & Hnewv & Hnewr & Hold).
  assert (0 < size ln' <= NVersions)%nat as Hn'.
  { destruct (decide (size ln = NVersions)); subst d; lia. }
  exists ln'. split; [exact Hw|].
  assert (exists m : nat, size ln' = S m) as [m Hm] by (exists (size ln' - 1)%nat; lia).
  rewrite Hm in Hnewv, Hnewr, Hold. replace (S m - 1)%nat with m in * by lia.
  split; [|split].
  - intros t' Ht'. rewrite record_at_ok, Hm by exact Hn'. simpl.
    rewrite Hnewv, Hnewr.
    destruct (Z.leb_spec t t'); [reflexivity | lia].
  - intros t' Ht' Hkeep. rewrite !record_at_ok, Hm by assumption. simpl.
    rewrite Hnewv. destruct (Z.leb_spec t t'); [lia|].
    f_equal. replace (size ln) with (m + d)%nat by lia.
    apply record_at_loop_shift; [exact Hold|].
    destruct (decide (size ln = NVersions)) as [Hfull | Hroom]; subst d.
    + right. destruct Hkeep as [Hlt | Hle]; [lia|].
      split; [unfold NVersions in *; lia | exact Hle].
    + left. reflexivity.
  - intros t' Hfull Ht'. rewrite record_at_ok, Hm by exact Hn'. simpl.
    rewrite Hnewv. destruct (Z.leb_spec t t') as [Hle | _].
    { pose proof (increasing_le_newest ln 1 Hinc). unfold NVersions in *. lia. }
    f_equal. apply record_at_loop_none. intros j Hj.
    rewrite decide_True in Hd by exact Hfull. subst d.
    rewrite (proj1 (Hold j Hj)).
    destruct (decide (j = 0%nat)) as [-> | Hne]; [exact Ht'|].
    specialize (Hinc 1%nat (j + 1)%nat). lia.
Qed.

Lemma record_at_after_write_witness :
  exists ln' : logical_node,
    write_record_at full_node 100 7 = Ok ln'
    /\ record_at ln' 100 = Ok (Some (100, 7))
    /\ record_at ln' 5 = record_at full_node 5
    /\ record_at full_node 0 = Ok (Some (0, 100))
    /\ record_at ln' 0 = Ok None.
Proof.
  destruct (record_at_after_write full_node 100 7)
    as (ln' & Hw & Hnew & Hkeep & Hgone).
  - vm_compute. split; [discriminate | reflexivity].
  - split; reflexivity.
  - reflexivity.
  - vm_compute. lia.
  - apply strictly_increasingb_sound. reflexivity.
  - vm_compute. reflexivity.
  - exists ln'. split; [exact Hw|]. split; [apply Hnew; lia|].
    split; [apply Hkeep; [lia | right; vm_compute; discriminate]|].
    split; [reflexivity|]. apply Hgone; reflexivity.
Defined.

Lemma is_snapshot_consistent_ok (ln : logical_node) (snapshot_tid commit_tid : tid_t) :
  (0 < size ln <= NVersions)%nat ->
  is_snapshot_consistent ln snapshot_tid commit_tid =
    if at_ (versions ln) (size ln - 1) <=? snapshot_tid then Ok true
    else snapshot_slow_path ln snapshot_tid commit_tid (size ln - 1).
Proof.
  intros Hn. unfold is_snapshot_consistent.
  rewrite INVARIANT_true by (apply size_check; exact Hn). reflexivity.
Qed.

(** Extra X7. A read taken at a snapshot at which the newest version was
    visible is consistent; once a version is written at [t] after that
    snapshot, the read is still consistent for a commit before [t],
    inconsistent for a commit after [t], and a commit at [t] itself fails the
    invariant of the slow path. *)
Theorem write_invalidates_snapshot (ln : logical_node) (t : tid_t) (r : record_t)
  (snapshot_tid commit_tid : tid_t) :
  in_range (hdr ln) -> array_shape ln ->
  is_locked ln = true ->
  (0 < size ln <= NVersions)%nat ->
  at_ (versions ln) (size ln - 1) <= snapshot_tid < t ->
  exists ln' : logical_node,
    write_record_at ln t r = Ok ln'
    /\ is_snapshot_consistent ln snapshot_tid commit_tid = Ok true
    /\ (commit_tid < t ->
        is_snapshot_consistent ln' snapshot_tid commit_tid = Ok true)
    /\ (t < commit_tid ->
        is_snapshot_consistent ln' snapshot_tid commit_tid = Ok false)
    /\ (t = commit_tid ->
        is_snapshot_consistent ln' snapshot_tid commit_tid = InvariantViolation).
Proof.
  intros Hhdr Hshape Hlocked Hn [Hsnap Ht].
  destruct (write_record_at_result ln t r Hhdr Hshape Hlocked Hn ltac:(lia))
    as (ln' & d & Hw & Hd & Hsz & _ & _ & _ & _ & Hnewv & _ & Hold).
  assert (exists m : nat, size ln' = S (S m) /\ (S m + d = size ln)%nat)
    as (m & Hm & Hmd).
  { exists (size ln' - 2)%nat.
    destruct (decide (size ln = NVersions)); subst d; unfold NVersions in *; lia. }
  exists ln'. split; [exact Hw|].
  split.
  { rewrite is_snapshot_consistent_ok by exact Hn.
    destruct (Z.leb_spec (at_ (versions ln) (size ln - 1)) snapshot_tid);
      [reflexivity | lia]. }
  assert (is_snapshot_consistent ln' snapshot_tid commit_tid =
            (INVARIANT (negb (t =? commit_tid)) ;;; Ok (commit_tid <? t))) as ->.
  { rewrite is_snapshot_consistent_ok
      by (destruct (decide (size ln = NVersions)); subst d; unfold NVersions in *; lia).
    rewrite Hm in *. replace (S (S m) - 1)%nat with (S m) in * by lia.
    rewrite Hnewv.
    destruct (Z.leb_spec t snapshot_tid) as [Hle | _]; [lia|].
    cbn [snapshot_slow_path].
    rewrite (proj1 (Hold m ltac:(lia))).
    replace (m + d)%nat with (size ln - 1)%nat by lia.
    destruct (Z.leb_spec (at_ (versions ln) (size ln - 1)) snapshot_tid); [|lia].
    replace (m + 1)%nat with (S m) by lia. rewrite Hnewv. reflexivity. }
  split; [|split].
  - intros Hc. destruct (Z.eqb_spec t commit_tid); [lia|]. simpl.
    destruct (Z.ltb_spec commit_tid t); [reflexivity | lia].
  - intros Hc. destruct (Z.eqb_spec t commit_tid); [lia|]. simpl.
    destruct (Z.ltb_spec commit_tid t); [lia | reflexivity].
  - intros Hc. destruct (Z.eqb_spec t commit_tid); [reflexivity | lia].
Qed.

Lemma write_invalidates_snapshot_witness :
  exists ln' : logical_node,
    write_record_at sample_node 16 43 = Ok ln'
    /\ is_snapshot_consistent sample_node 15 17 = Ok true
    /\ is_snapshot_consistent ln' 15 17 = Ok false.
Proof.
  destruct (write_invalidates_snapshot sample_node 16 43 15 17)
    as (ln' & Hw & Hbefore & _ & Hafter & _).
  - vm_compute. split; [discriminate | reflexivity].
  - split; reflexivity.
  - reflexivity.
  - vm_compute. lia.
  - vm_compute. split; [discriminate | reflexivity].
  - exists ln'. split; [exact Hw|]. split; [exact Hbefore|]. apply Hafter. lia.
Defined.

(** Extra X8. For [snapshot_tid <= commit_tid] on a well formed chain,
    [is_snapshot_consistent] returns true exactly when [record_at] finds the
    same version at [snapshot_tid] and at [commit_tid]. *)
Theorem snapshot_consistent_iff_same_read (ln : logical_node)
  (snapshot_tid commit_tid : tid_t) :
  (0 < size ln <= NVersions)%nat ->
  strictly_increasing ln ->
  snapshot_tid <= commit_tid ->
  is_snapshot_consistent ln snapshot_tid commit_tid = Ok true <->
  exists (start_t : tid_t) (r : record_t),
    record_at ln snapshot_tid = Ok (Some (start_t, r))
    /\ record_at ln commit_tid = Ok (Some (start_t, r)).
Proof.
  intros Hn Hinc Hsc.
  rewrite is_snapshot_consistent_ok, !record_at_ok by exact Hn.
  split.
  - intros Hisc.
    destruct (record_at_loop ln snapshot_tid (size ln)) as [[s r]|] eqn:Hrec.
    + apply record_at_loop_found in Hrec as (i & Hi & -> & -> & Hle & Hnewer).
      exists (at_ (versions ln) i), (at_ (values ln) i). split; [reflexivity|].
      f_equal. apply record_at_loop_at; [exact Hi | lia|].
      intros j Hj.
      destruct (Z.leb_spec (at_ (versions ln) (size ln - 1)) snapshot_tid)
        as [Hfast | Hslow].
      { specialize (Hnewer j Hj).
        pose proof (increasing_le_newest ln j Hinc). lia. }
      rewrite (snapshot_slow_path_found ln snapshot_tid commit_tid (size ln - 1) i)
        in Hisc.
      * destruct (Z.eqb_spec (at_ (versions ln) (i + 1)) commit_tid);
          [discriminate|]. simpl in Hisc. injection Hisc as Hlt.
        apply Z.ltb_lt in Hlt.
        destruct (decide (j = (i + 1)%nat)) as [-> | Hne]; [exact Hlt|].
        specialize (Hinc (i + 1)%nat j). lia.
      * destruct (decide (i = (size ln - 1)%nat)) as [-> | Hne]; lia.
      * exact Hle.
      * intros j' Hj'. apply Hnewer. lia.
    + rewrite record_at_loop_none in Hrec.
      destruct (Z.leb_spec (at_ (versions ln) (size ln - 1)) snapshot_tid)
        as [Hfast | Hslow].
      { specialize (Hrec (size ln - 1)%nat). lia. }
      rewrite snapshot_slow_path_none in Hisc; [discriminate|].
      intros j Hj. apply Hrec. lia.
  - intros (s & r & Hsnap & Hcommit).
    injection Hsnap as Hsnap. injection Hcommit as Hcommit.
    apply record_at_loop_found in Hsnap as (i & Hi & -> & -> & Hle & Hnewer).
    apply record_at_loop_found in Hcommit as (i' & Hi' & Hv & _ & Hle' & Hnewer').
    assert (i' = i) as ->.
    { destruct (Nat.lt_trichotomy i' i) as [Hlt | [Heq | Hgt]]; [|exact Heq|].
      - specialize (Hinc i' i). lia.
      - specialize (Hinc i i'). lia. }
    destruct (Z.leb_spec (at_ (versions ln) (size ln - 1)) snapshot_tid)
      as [Hfast | Hslow]; [reflexivity|].
    assert (i <> (size ln - 1)%nat) as Hne by (intros ->; lia).
    rewrite (snapshot_slow_path_found ln snapshot_tid commit_tid (size ln - 1) i);
      [| lia | exact Hle | intros j Hj; apply Hnewer; lia].
    specialize (Hnewer' (i + 1)%nat ltac:(lia)).
    destruct (Z.eqb_spec (at_ (versions ln) (i + 1)) commit_tid); [lia|]. simpl.
    destruct (Z.ltb_spec commit_tid (at_ (versions ln) (i + 1))); [reflexivity | lia].
Qed.

Lemma snapshot_consistent_iff_same_read_witness :
  is_snapshot_consistent sample_node 6 7 = Ok true
  /\ exists (start_t : tid_t) (r : record_t),
       record_at sample_node 6 = Ok (Some (start_t, r))
       /\ record_at sample_node 7 = Ok (Some (start_t, r)).
Proof.
  split; [reflexivity|].
  apply (snapshot_consistent_iff_same_read sample_node 6 7).
  - vm_compute. lia.
  - exact sample_node_increasing.
  - lia.
  - reflexivity.
Defined.

(** Extra X9. [is_latest_version(t)] compares the newest timestamp with
    [t]. When it is true, [record_at(t)] returns the newest entry and
    [is_snapshot_consistent(t, c)] is true for every [c]; when it is false on
    an increasing chain, whatever [record_at(t)] finds is older than the
    newest entry. *)
Theorem is_latest_version_spec (ln : logical_node) (t : tid_t) :
  (0 < size ln <= NVersions)%nat ->
  is_latest_version ln t = Ok (at_ (versions ln) (size ln - 1) <=? t)
  /\ (is_latest_version ln t = Ok true ->
      record_at ln t
        = Ok (Some (at_ (versions ln) (size ln - 1), at_ (values ln) (size ln - 1)))
      /\ forall commit_tid : tid_t,
           is_snapshot_consistent ln t commit_tid = Ok true)
  /\ (is_latest_version ln t = Ok false ->
      strictly_increasing ln ->
      forall (start_t : tid_t) (r : record_t),
        record_at ln t = Ok (Some (start_t, r)) ->
        start_t < at_ (versions ln) (size ln - 1)).
Proof.
  intros Hn. unfold is_latest_version.
  rewrite INVARIANT_true by (apply size_check; exact Hn).
  split; [reflexivity|]. split.
  - intros [= Hle]. apply Z.leb_le in Hle. split.
    + rewrite record_at_ok by exact Hn. f_equal.
      apply record_at_loop_at; [lia | exact Hle | intros j Hj; lia].
    + intros commit_tid. rewrite is_snapshot_consistent_ok by exact Hn.
      destruct (Z.leb_spec (at_ (versions ln) (size ln - 1)) t); [reflexivity | lia].
  - intros [= Hgt] Hinc s r. apply Z.leb_gt in Hgt.
    rewrite record_at_ok by exact Hn. intros [= Hrec].
    apply record_at_loop_found in Hrec as (i & Hi & -> & _ & Hle & _).
    pose proof (increasing_le_newest ln i Hinc Hi). lia.
Qed.

Lemma is_latest_version_spec_witness :
  is_latest_version sample_node 12 = Ok true
  /\ record_at sample_node 12 = Ok (Some (10, 42))
  /\ is_snapshot_consistent sample_node 12 40 = Ok true.
Proof.
  destruct (is_latest_version_spec sample_node 12) as (Heq & Hlatest & _).
  - vm_compute. lia.
  - split; [exact Heq|]. destruct (Hlatest Heq) as [Hrec Hisc].
    split; [exact Hrec | apply Hisc].
Defined.

Lemma snapshot_slow_path_antitone (ln : logical_node)
  (snapshot_tid c c' : tid_t) (k : nat) :
  c' <= c ->
  snapshot_slow_path ln snapshot_tid c k = Ok true ->
  snapshot_slow_path ln snapshot_tid c' k = Ok true.
Proof.
  intros Hc. induction k as [|k IH]; simpl; [discriminate|].
  destruct (at_ (versions ln) k <=? snapshot_tid); [|exact IH].
  destruct (Z.eqb_spec (at_ (versions ln) (k + 1)) c); [discriminate|]. simpl.
  intros [= Hlt]. apply Z.ltb_lt in Hlt.
  destruct (Z.eqb_spec (at_ (versions ln) (k + 1)) c'); [lia|]. simpl.
  destruct (Z.ltb_spec c' (at_ (versions ln) (k + 1))); [reflexivity | lia].
Qed.

(** Extra X10. A read that is consistent for a commit timestamp is
    consistent for every smaller commit timestamp. *)
Theorem is_snapshot_consistent_antitone (ln : logical_node)
  (snapshot_tid commit_tid commit_tid' : tid_t) :
  commit_tid' <= commit_tid ->
  is_snapshot_consistent ln snapshot_tid commit_tid = Ok true ->
  is_snapshot_consistent ln snapshot_tid commit_tid' = Ok true.
Proof.
  intros Hc. unfold is_snapshot_consistent.
  destruct (INVARIANT ((0 <? size ln)%nat && (size ln <=? NVersions)%nat));
    [|discriminate]. cbn [bind].
  destruct (at_ (versions ln) (size ln - 1) <=? snapshot_tid); [reflexivity|].
  apply snapshot_slow_path_antitone. exact Hc.
Qed.

Lemma is_snapshot_consistent_antitone_witness :
  7 <= 9
  /\ is_snapshot_consistent sample_node 6 9 = Ok true
  /\ is_snapshot_consistent sample_node 6 7 = Ok true.
Proof.
  split; [lia|]. split; [reflexivity|].
  apply (is_snapshot_consistent_antitone sample_node 6 9 7); [lia | reflexivity].
Defined.

(** Extra X5. [write_record_at(t, r)] succeeds exactly when the node is
    locked, retains at least one version and [t] is greater than the newest
    timestamp; in every other case it is an invariant violation. *)
Theorem write_record_at_succeeds_iff (ln : logical_node) (t : tid_t) (r : record_t) :
  ((exists ln' : logical_node, write_record_at ln t r = Ok ln') <->
   is_locked ln = true
   /\ (0 < size ln)%nat
   /\ at_ (versions ln) (size ln - 1) < t)
  /\ ((is_locked ln = false \/ size ln = 0%nat
       \/ t <= at_ (versions ln) (size ln - 1)) ->
      write_record_at ln t r = InvariantViolation).
Proof.
  pose proof (size_never_exceeds_NVersions ln) as Hmax.
  unfold write_record_at.
  destruct (is_locked ln) eqn:Hlocked; cbn [INVARIANT bind].
  2: { split; [|reflexivity]. split; [intros [ln' [=]] | intros [[=] _]]. }
  destruct (Nat.ltb_spec 0 (size ln)) as [Hpos | Hzero]; cbn [andb].
  2: { rewrite INVARIANT_false by reflexivity.
       split; [|reflexivity]. split; [intros [ln' [=]] | lia]. }
  rewrite INVARIANT_true by (apply Nat.leb_le; exact Hmax).
  destruct (Z.ltb_spec (at_ (versions ln) (size ln - 1)) t) as [Ht | Ht];
    cbn [INVARIANT bind].
  2: { split; [|reflexivity]. split; [intros [ln' [=]] | lia]. }
  split.
  - split; [intros _; repeat split; assumption|]. intros _.
    destruct (Nat.eqb_spec (size ln) NVersions) as [Hfull | Hroom].
    + eexists. reflexivity.
    + rewrite set_size_ok by lia. eexists. reflexivity.
  - intros [[=] | [Hz | Hle]]; lia.
Qed.

(** ** More on key ranges *)


(** Extra X11. [is_empty_range] decides emptiness: it is true exactly when
    no key is in the range, and a range for which it is false holds its
    lower bound [a]. *)
Theorem is_empty_range_iff (r : key_range_t) :
  (key_range_t.is_empty_range r = true <->
   forall k : key_type, key_range_t.key_in_range r k = false)
  /\ (key_range_t.is_empty_range r = false ->
      key_range_t.key_in_range r (key_range_t.a r) = true).
Proof.
  assert (key_range_t.is_empty_range r = false ->
          key_range_t.key_in_range r (key_range_t.a r) = true) as Hlow.
  { destruct r as [ar hr br].
    unfold key_range_t.is_empty_range, key_range_t.key_in_range. simpl.
    destruct hr; simpl; compare_cases. }
  split; [|exact Hlow]. split.
  - intros He k. apply empty_range_no_key. exact He.
  - intros Hnone. destruct (key_range_t.is_empty_range r) eqn:He; [reflexivity|].
    rewrite (Hnone (key_range_t.a r)) in Hlow. discriminate (Hlow eq_refl).
Qed.

(** Extra X12. For a non-empty [r2], [r1.contains(r2)] is true exactly
    when every key of [r2] is a key of [r1]. *)
Theorem contains_iff_inclusion (r1 r2 : key_range_t) :
  key_range_t.is_empty_range r2 = false ->
  key_range_t.contains r1 r2 = true <->
  forall k : key_type,
    key_range_t.key_in_range r2 k = true -> key_range_t.key_in_range r1 k = true.
Proof.
  intros Hne. split.
  - intros Hc k. revert Hc.
    destruct r1 as [a1 h1 b1], r2 as [a2 h2 b2].
    unfold key_range_t.contains, key_range_t.key_in_range. simpl.
    destruct h1, h2; simpl; compare_cases.
  - intros Hincl.
    pose proof (Hincl (key_range_t.a r2)) as Hlow.
    pose proof (Hincl (key_max (key_range_t.a r2) (key_range_t.b r1))) as Hhigh.
    revert Hne Hlow Hhigh.
    destruct r1 as [a1 h1 b1], r2 as [a2 h2 b2].
    unfold key_range_t.is_empty_range, key_range_t.contains,
      key_range_t.key_in_range, key_max. simpl.
    destruct (key_le a2 b1) eqn:Emax; destruct h1, h2; simpl; compare_cases.
    all: repeat match goal with
           | H : true = true -> _ |- _ => specialize (H eq_refl)
           end; congruence.
Qed.

Lemma contains_iff_inclusion_witness :
  key_range_t.is_empty_range (key_range_between "c" "k") = false
  /\ key_range_t.contains (key_range_from "b") (key_range_between "c" "k") = true.
Proof.
  split; [reflexivity|].
  apply (contains_iff_inclusion (key_range_from "b") (key_range_between "c" "k"));
    [reflexivity|].
  intros k. unfold key_range_from, key_range_between, key_range_t.key_in_range.
  simpl. rewrite !andb_true_iff. intros [Hle _].
  assert (key_lt "b" "c" = true) as Hbc by reflexivity.
  split; [key_order | reflexivity].
Defined.

(** Extra X13. [contains] is reflexive and transitive, and two ranges
    that contain each other have the same lower bound, the same [has_b] and,
    when bounded, the same upper bound. *)
Theorem contains_partial_order (r1 r2 r3 : key_range_t) :
  key_range_t.contains r1 r1 = true
  /\ (key_range_t.contains r1 r2 = true ->
      key_range_t.contains r2 r3 = true ->
      key_range_t.contains r1 r3 = true)
  /\ (key_range_t.contains r1 r2 = true ->
      key_range_t.contains r2 r1 = true ->
      key_range_t.a r1 = key_range_t.a r2
      /\ key_range_t.has_b r1 = key_range_t.has_b r2
      /\ (key_range_t.has_b r1 = true -> key_range_t.b r1 = key_range_t.b r2)).
Proof.
  destruct r1 as [a1 h1 b1], r2 as [a2 h2 b2], r3 as [a3 h3 b3].
  unfold key_range_t.contains. simpl. split; [|split].
  - destruct h1; simpl; compare_cases.
  - destruct h1, h2, h3; simpl; compare_cases.
  - destruct h1, h2; simpl;
      repeat match goal with
        | |- context [key_le ?x ?y] =>
            let E := fresh "E" in destruct (key_le x y) eqn:E; simpl
        | |- context [key_lt ?x ?y] =>
            let E := fresh "E" in destruct (key_lt x y) eqn:E; simpl
        end; intros; try discriminate;
      repeat split; try reflexivity; try discriminate; intros; key_order.
Qed.

(** Extra X14. The default range is empty and holds no key. The range
    built from a lower bound alone is never empty, holds exactly the keys
    from that bound on and contains exactly the ranges that start at or
    after it. The range built from two bounds is non-empty exactly when the
    first bound is below the second. *)
Theorem key_range_constructors (a b : string) (k : key_type) :
  (key_range_t.is_empty_range key_range_default = true
   /\ key_range_t.key_in_range key_range_default k = false)
  /\ (key_range_t.is_empty_range (key_range_from a) = false
      /\ (key_range_t.key_in_range (key_range_from a) k = true <-> key_upto a k)
      /\ forall r : key_range_t,
           key_range_t.contains (key_range_from a) r = true
           <-> key_upto a (key_range_t.a r))
  /\ (key_range_t.is_empty_range (key_range_between a b) = false
      <-> key_before a b).
Proof.
  split; [split; reflexivity || (unfold key_range_default, key_range_t.key_in_range;
                                 simpl; compare_cases)|].
  split; [split; [reflexivity|split]|].
  - unfold key_range_from, key_range_t.key_in_range. simpl.
    rewrite andb_true_r. apply key_le_upto.
  - intros r. unfold key_range_from, key_range_t.contains. simpl.
    rewrite <- key_le_upto.
    destruct (key_lt (key_range_t.a r) a) eqn:E; split; intros H;
      try reflexivity; try discriminate; key_order.
  - unfold key_range_between, key_range_t.is_empty_range. simpl.
    rewrite <- key_lt_before. split; intros H; key_order.
Qed.

(** Extra X15. A key inside a range compares less than the range; the
    comparator is downward closed in the key; and it is false exactly when
    the range is bounded and its upper bound is at most the key. *)
Theorem search_cmp_and_range (k k' : key_type) (range : key_range_t) :
  (key_range_t.key_in_range range k = true ->
   key_range_search_less_cmp k range = true)
  /\ (key_upto k' k ->
      key_range_search_less_cmp k range = true ->
      key_range_search_less_cmp k' range = true)
  /\ (key_range_search_less_cmp k range = false <->
      key_range_t.has_b range = true /\ key_upto (key_range_t.b range) k).
Proof.
  destruct range as [ar hr br].
  unfold key_range_search_less_cmp, key_range_t.key_in_range. simpl.
  split; [|split].
  - destruct hr; simpl; compare_cases.
  - intros Hk. apply key_le_upto in Hk. revert Hk.
    destruct hr; simpl; compare_cases.
  - rewrite <- key_le_upto. destruct hr; simpl.
    + split; [intros H; split; [reflexivity | key_order] | intros [_ H]; key_order].
    + split; [discriminate | intros [[=] _]].
Qed.

(** ** The locking protocol *)

Lemma Version_range (v : Z) : 0 <= Version v < 2 ^ 59.
Proof. rewrite Version_div. apply Z.mod_pos_bound. lia. Qed.

Lemma lock_Some (ln ln' : logical_node) :
  lock ln = Some ln' ->
  is_locked ln = false /\ ln' = set_hdr ln (Z.lor (hdr ln) HDR_LOCKED_MASK).
Proof.
  unfold lock, is_locked. destruct (IsLocked (hdr ln)); [discriminate|].
  intros [= <-]. split; reflexivity.
Qed.

Lemma unlock_Ok (ln ln' : logical_node) :
  unlock ln = Ok ln' ->
  is_locked ln = true /\ ln' = set_hdr ln (unlock_word (hdr ln)).
Proof.
  rewrite unlock_eq. unfold is_locked.
  destruct (IsLocked (hdr ln)); [|discriminate]. cbn [INVARIANT bind].
  destruct (negb (IsLocked (unlock_word (hdr ln)))); [|discriminate].
  intros [= <-]. split; reflexivity.
Qed.

Lemma writer_steps_version (n : nat) (ln ln' : logical_node) :
  writer_steps n ln ln' ->
  in_range (hdr ln) ->
  in_range (hdr ln')
  /\ Version (hdr ln') = (Version (hdr ln) + Z.of_nat n) mod 2 ^ 59.
Proof.
  intros Hsteps Hr. induction Hsteps as
    [ln | n ln ln1 ln2 _ IH Hlock | n ln ln1 ln2 _ IH Hl1 Hl2 Hver Hr2
    | n ln ln1 ln2 _ IH Hunlock].
  - split; [exact Hr|]. rewrite Z.add_0_r, Z.mod_small; [reflexivity|].
    apply Version_range.
  - destruct (IH Hr) as [Hr1 Hv1].
    apply lock_Some in Hlock as [Hfree ->].
    destruct (lock_word_fields (hdr ln1) Hr1 Hfree) as (Hr2 & _ & _ & Hver & _).
    cbn [set_hdr hdr]. rewrite Hver. split; assumption.
  - destruct (IH Hr) as [Hr1 Hv1]. rewrite Hver. split; assumption.
  - destruct (IH Hr) as [Hr1 Hv1].
    apply unlock_Ok in Hunlock as [_ ->].
    destruct (unlock_word_fields (hdr ln1) Hr1) as (Hr2 & _ & Hver & _).
    cbn [set_hdr hdr]. rewrite Hver, Hv1. split; [exact Hr2|].
    rewrite Zplus_mod_idemp_l. f_equal. lia.
Qed.

Lemma writer_steps_zero (n : nat) (ln ln' : logical_node) :
  writer_steps n ln ln' -> n = 0%nat ->
  (is_locked ln = false -> ln' = ln \/ is_locked ln' = true)
  /\ (is_locked ln = true -> is_locked ln' = true).
Proof.
  intros Hsteps. induction Hsteps as
    [ln | n ln ln1 ln2 _ IH Hlock | n ln ln1 ln2 _ IH Hl1 Hl2 Hver Hr2
    | n ln ln1 ln2 _ IH Hunlock]; intros Hn.
  - split; [left; reflexivity | intros H; exact H].
  - assert (is_locked ln2 = true) as Hl2.
    { apply lock_Some in Hlock as [Hfree ->]. unfold is_locked in *.
      cbn [set_hdr hdr]. rewrite IsLocked_mod in *.
      apply Z.eqb_neq in Hfree. apply Z.eqb_eq.
      change HDR_LOCKED_MASK with 1.
      rewrite <- Z.bit0_mod, Z.lor_spec. change (Z.testbit 1 0) with true.
      rewrite orb_true_r. reflexivity. }
    split; intros _; [right|]; exact Hl2.
  - split; intros _; [right|]; exact Hl2.
  - discriminate Hn.
Qed.

Lemma writer_steps_trans (n1 n2 : nat) (a b c : logical_node) :
  writer_steps n1 a b -> writer_steps n2 b c -> writer_steps (n1 + n2) a c.
Proof.
  intros Hab Hbc. induction Hbc as
    [ln | n ln ln1 ln2 _ IH Hlock | n ln ln1 ln2 _ IH Hl1 Hl2 Hver Hr2
    | n ln ln1 ln2 _ IH Hunlock].
  - rewrite Nat.add_0_r. exact Hab.
  - eapply steps_lock; [apply IH, Hab | exact Hlock].
  - eapply steps_store; [apply IH, Hab | assumption..].
  - rewrite Nat.add_succ_r. eapply steps_unlock; [apply IH, Hab | exact Hunlock].
Qed.

Lemma history_between (mem : Shared.memory) (epoch : nat -> nat) (tau tau' : nat) :
  Shared.history mem epoch -> (tau <= tau')%nat ->
  (epoch tau <= epoch tau')%nat
  /\ writer_steps (epoch tau' - epoch tau) (mem tau) (mem tau').
Proof.
  intros [_ Hstep] Hle. induction Hle as [|tau' Hle [IHe IHs]].
  - split; [lia|]. rewrite Nat.sub_diag. apply steps_refl.
  - destruct (Hstep tau') as [He Hs]. split; [lia|].
    replace (epoch (S tau') - epoch tau)%nat
      with ((epoch tau' - epoch tau) + (epoch (S tau') - epoch tau'))%nat by lia.
    eapply writer_steps_trans; eassumption.
Qed.

Lemma history_in_range (mem : Shared.memory) (epoch : nat -> nat) (tau : nat) :
  Shared.history mem epoch -> in_range (hdr (mem tau)).
Proof.
  intros Hh. destruct (history_between mem epoch 0 tau Hh ltac:(lia)) as [_ Hs].
  apply (writer_steps_version _ _ _ Hs). apply Hh.
Qed.

(** The heart of the versioned header: when the header word read at [tau2] is
    the unlocked word read at [tau0] and fewer than 2^59 unlocks came in
    between, the node did not change at any instant in between. *)
Lemma seqlock_window (mem : Shared.memory) (epoch : nat -> nat) (tau0 tau2 : nat) :
  Shared.history mem epoch ->
  (tau0 <= tau2)%nat ->
  Z.of_nat (epoch tau2 - epoch tau0) < 2 ^ 59 ->
  is_locked (mem tau0) = false ->
  hdr (mem tau2) = hdr (mem tau0) ->
  forall tau : nat, (tau0 <= tau <= tau2)%nat -> mem tau = mem tau0.
Proof.
  intros Hh Hle Hbound Hfree Hsame tau [Hlo Hhi].
  pose proof (history_in_range mem epoch tau0 Hh) as Hr0.
  destruct (history_between mem epoch tau0 tau2 Hh Hle) as [He02 Hs02].
  destruct (history_between mem epoch tau0 tau Hh Hlo) as [He0 Hs0].
  destruct (history_between mem epoch tau tau2 Hh Hhi) as [He2 Hs2].
  destruct (writer_steps_version _ _ _ Hs02 Hr0) as [_ Hv].
  rewrite Hsame in Hv.
  pose proof (Version_range (hdr (mem tau0))) as HV.
  assert (epoch tau2 = epoch tau0) as Heq.
  { assert (Z.of_nat (epoch tau2 - epoch tau0) = 0) as Hz; [|lia].
    revert Hv Hbound HV. generalize (epoch tau2 - epoch tau0)%nat as m.
    generalize (Version (hdr (mem tau0))) as V. intros V m Hv Hbound HV.
    pose proof (Nat2Z.is_nonneg m) as Hm.
    revert Hv Hbound Hm. generalize (Z.of_nat m) as n. intros n Hv Hbound Hm.
    Z.div_mod_to_equations. lia. }
  destruct (writer_steps_zero _ _ _ Hs0 ltac:(lia)) as [Hfrom _].
  destruct (Hfrom Hfree) as [Hsame0 | Hlocked]; [exact Hsame0|].
  destruct (writer_steps_zero _ _ _ Hs2 ltac:(lia)) as [_ Hstay].
  specialize (Hstay Hlocked). unfold is_locked in *.
  rewrite Hsame, Hfree in Hstay. discriminate.
Qed.

(** Extra X16. Whatever the writers did under the locking protocol, if
    the header word is again the unlocked word seen before and fewer than
    2^59 unlocks took place, then no unlock took place and the whole node,
    arrays included, is the one seen before. *)
Theorem unchanged_header_unchanged_node (n : nat) (ln ln' : logical_node) :
  writer_steps n ln ln' ->
  in_range (hdr ln) ->
  is_locked ln = false ->
  Z.of_nat n < 2 ^ 59 ->
  hdr ln' = hdr ln ->
  n = 0%nat /\ ln' = ln.
Proof.
  intros Hsteps Hr Hfree Hbound Hsame.
  destruct (writer_steps_version n ln ln' Hsteps Hr) as [_ Hv].
  rewrite Hsame in Hv.
  pose proof (Version_range (hdr ln)) as HV.
  assert (n = 0%nat) as ->.
  { assert (Z.of_nat n = 0) as Hz; [|lia].
    pose proof (Nat2Z.is_nonneg n) as Hn.
    revert Hv Hbound Hn HV. generalize (Z.of_nat n) as z.
    generalize (Version (hdr ln)) as V. intros V z Hv Hbound Hn HV.
    Z.div_mod_to_equations. lia. }
  split; [reflexivity|].
  destruct (writer_steps_zero 0 ln ln' Hsteps eq_refl) as [Hfrom _].
  destruct (Hfrom Hfree) as [Heq | Hlocked]; [exact Heq|].
  unfold is_locked in *. rewrite Hsame, Hfree in Hlocked. discriminate.
Qed.

(** ** The readers *)

Lemma stable_version_Some (mem : Shared.memory) (fuel tau : nat) (v : Z) (tau1 : nat) :
  Shared.stable_version mem fuel tau = Some (v, tau1) ->
  exists tau0 : nat,
    tau1 = S tau0 /\ (tau <= tau0 < tau + fuel)%nat
    /\ hdr (mem tau0) = v /\ IsLocked v = false
    /\ forall x : nat, (tau <= x < tau0)%nat -> is_locked (mem x) = true.
Proof.
  revert tau. induction fuel as [|fuel IH]; intros tau; simpl; [discriminate|].
  destruct (IsLocked (hdr (mem tau))) eqn:Hl.
  - intros Hrec. destruct (IH (S tau) Hrec) as (tau0 & -> & Hrange & Hv & Hfree & Hspin).
    exists tau0. repeat split; try assumption; try lia.
    intros x Hx. destruct (decide (x = tau)) as [-> | Hne]; [exact Hl|].
    apply Hspin. lia.
  - intros [= <- <-]. exists tau. repeat split; try assumption; try lia.
Qed.

Lemma shared_record_at_loop_window (mem : Shared.memory) (s : logical_node)
  (t : tid_t) (k tau : nat) :
  (tau <= snd (Shared.record_at_loop mem t k tau))%nat
  /\ ((forall x : nat,
         (tau <= x < snd (Shared.record_at_loop mem t k tau))%nat -> mem x = s) ->
      fst (Shared.record_at_loop mem t k tau) = record_at_loop s t k).
Proof.
  revert tau. induction k as [|k IH]; intros tau; simpl.
  - split; [lia | reflexivity].
  - destruct (at_ (versions (mem tau)) k <=? t) eqn:Htest; simpl.
    + split; [lia|]. intros Hsame.
      rewrite (Hsame tau) in Htest by lia. rewrite Htest.
      rewrite (Hsame (S tau)), (Hsame (S (S tau))) by lia. reflexivity.
    + destruct (IH (S tau)) as [Hle Hres]. split; [lia|]. intros Hsame.
      rewrite (Hsame tau) in Htest by lia. rewrite Htest.
      apply Hres. intros x Hx. apply Hsame. lia.
Qed.

Lemma shared_record_at_window (mem : Shared.memory) (s : logical_node)
  (t : tid_t) (tau : nat) :
  (tau < snd (Shared.record_at mem t tau))%nat
  /\ ((forall x : nat,
         (tau <= x < snd (Shared.record_at mem t tau))%nat -> mem x = s) ->
      fst (Shared.record_at mem t tau) = record_at s t).
Proof.
  unfold Shared.record_at, record_at.
  destruct (INVARIANT ((0 <? size (mem tau))%nat && (size (mem tau) <=? NVersions)%nat))
    eqn:Hinv; simpl.
  - destruct (Shared.record_at_loop mem t (size (mem tau)) (S tau)) as [found tau'] eqn:Hloop.
    pose proof (shared_record_at_loop_window mem s t (size (mem tau)) (S tau)) as [Hle Hres].
    rewrite Hloop in Hle, Hres. simpl in *. split; [lia|]. intros Hsame.
    pose proof (Hsame tau ltac:(lia)) as Hs. rewrite Hs in Hinv, Hres.
    rewrite Hinv. simpl. f_equal.
    apply Hres. intros x Hx. apply Hsame. lia.
  - split; [lia|]. intros Hsame.
    pose proof (Hsame tau ltac:(lia)) as Hs. rewrite Hs in Hinv.
    rewrite Hinv. reflexivity.
Qed.

(** Extra X19. When writers follow the locking protocol, with fewer than
    2^59 unlocks, a pair returned as found by [stable_read(t)] is not torn:
    at some instant of the call the node was unlocked, [record_at(t)] on the
    node of that instant returns that very pair, and the node did not change
    from that instant to the end of the call. *)
Theorem stable_read_validated (mem : Shared.memory) (epoch : nat -> nat)
  (t : tid_t) (fuel tau tau' : nat) (start_t : tid_t) (r : record_t) :
  Shared.history mem epoch ->
  (forall x : nat, Z.of_nat (epoch x) < 2 ^ 59) ->
  Shared.stable_read mem t fuel tau = Some (Ok (Some (start_t, r)), tau') ->
  exists tau0 : nat,
    (tau <= tau0 < tau')%nat
    /\ is_locked (mem tau0) = false
    /\ record_at (mem tau0) t = Ok (Some (start_t, r))
    /\ forall x : nat, (tau0 <= x < tau')%nat -> mem x = mem tau0.
Proof.
  intros Hh Hbound. revert tau.
  induction fuel as [|fuel IH]; intros tau; simpl; [discriminate|].
  destruct (Shared.stable_version mem fuel tau) as [[v tau1]|] eqn:Hsv; [|discriminate].
  apply stable_version_Some in Hsv as (tau0 & -> & Hrange & Hv & Hfree & _).
  pose proof (shared_record_at_window mem (mem tau0) t (S tau0)) as [Hlt Hres].
  destruct (Shared.record_at mem t (S tau0)) as [[[found|]|] tau2];
    simpl in *; try discriminate.
  destruct (Z.eqb_spec (hdr (mem tau2)) v) as [Hsame | Hdiff].
  - intros [= -> <-]. exists tau0.
    assert (forall x : nat, (tau0 <= x <= tau2)%nat -> mem x = mem tau0) as Hwin.
    { apply (seqlock_window mem epoch tau0 tau2 Hh).
      - lia.
      - specialize (Hbound tau2). lia.
      - unfold is_locked. rewrite Hv. exact Hfree.
      - congruence. }
    split; [lia|]. split; [unfold is_locked; rewrite Hv; exact Hfree|].
    split; [|intros x Hx; apply Hwin; lia].
    symmetry. apply Hres. intros x Hx. apply Hwin. lia.
  - intros Hrec. destruct (IH (S tau2) Hrec) as (tau0' & Hr' & Hrest).
    exists tau0'. split; [lia | exact Hrest].
Qed.

Lemma shared_is_latest_version_window (mem : Shared.memory) (s : logical_node)
  (t : tid_t) (tau : nat) :
  (tau < snd (Shared.is_latest_version mem t tau))%nat
  /\ ((forall x : nat,
         (tau <= x < snd (Shared.is_latest_version mem t tau))%nat -> mem x = s) ->
      fst (Shared.is_latest_version mem t tau) = is_latest_version s t).
Proof.
  unfold Shared.is_latest_version, is_latest_version.
  destruct (INVARIANT ((0 <? size (mem tau))%nat && (size (mem tau) <=? NVersions)%nat))
    eqn:Hinv; simpl.
  - split; [lia|]. intros Hsame.
    pose proof (Hsame tau ltac:(lia)) as Hs. rewrite Hs in Hinv |- *.
    rewrite Hinv, (Hsame (S tau)) by lia. reflexivity.
  - split; [lia|]. intros Hsame.
    pose proof (Hsame tau ltac:(lia)) as Hs. rewrite Hs in Hinv.
    rewrite Hinv. reflexivity.
Qed.

Lemma shared_snapshot_slow_path_window (mem : Shared.memory) (s : logical_node)
  (snapshot_tid commit_tid : tid_t) (k tau : nat) :
  (tau <= snd (Shared.snapshot_slow_path mem snapshot_tid commit_tid k tau))%nat
  /\ ((forall x : nat,
         (tau <= x < snd (Shared.snapshot_slow_path mem snapshot_tid commit_tid k tau))%nat ->
         mem x = s) ->
      fst (Shared.snapshot_slow_path mem snapshot_tid commit_tid k tau)
      = snapshot_slow_path s snapshot_tid commit_tid k).
Proof.
  revert tau. induction k as [|k IH]; intros tau; simpl.
  - split; [lia | reflexivity].
  - destruct (at_ (versions (mem tau)) k <=? snapshot_tid) eqn:Htest.
    + destruct (INVARIANT (negb (at_ (versions (mem (S tau))) (k + 1) =? commit_tid)))
        eqn:Hinv; simpl.
      * split; [lia|]. intros Hsame.
        rewrite (Hsame tau) in Htest by lia. rewrite Htest.
        rewrite (Hsame (S tau)) in Hinv by lia. rewrite Hinv.
        rewrite (Hsame (S (S tau))) by lia. reflexivity.
      * split; [lia|]. intros Hsame.
        rewrite (Hsame tau) in Htest by lia. rewrite Htest.
        rewrite (Hsame (S tau)) in Hinv by lia. rewrite Hinv. reflexivity.
    + destruct (IH (S tau)) as [Hle Hres]. split; [lia|]. intros Hsame.
      rewrite (Hsame tau) in Htest by lia. rewrite Htest.
      apply Hres. intros x Hx. apply Hsame. lia.
Qed.

Lemma shared_is_snapshot_consistent_window (mem : Shared.memory) (s : logical_node)
  (snapshot_tid commit_tid : tid_t) (tau : nat) :
  (tau < snd (Shared.is_snapshot_consistent mem snapshot_tid commit_tid tau))%nat
  /\ ((forall x : nat,
         (tau <= x < snd (Shared.is_snapshot_consistent mem snapshot_tid commit_tid tau))%nat ->
         mem x = s) ->
      fst (Shared.is_snapshot_consistent mem snapshot_tid commit_tid tau)
      = is_snapshot_consistent s snapshot_tid commit_tid).
Proof.
  unfold Shared.is_snapshot_consistent, is_snapshot_consistent.
  destruct (INVARIANT ((0 <? size (mem tau))%nat && (size (mem tau) <=? NVersions)%nat))
    eqn:Hinv; simpl.
  - destruct (at_ (versions (mem (S tau))) (size (mem tau) - 1) <=? snapshot_tid)
      eqn:Hfast; simpl.
    + split; [lia|]. intros Hsame.
      pose proof (Hsame tau ltac:(lia)) as Hs. rewrite Hs in Hinv, Hfast.
      rewrite (Hsame (S tau)) in Hfast by lia. rewrite Hinv, Hfast. reflexivity.
    + pose proof (shared_snapshot_slow_path_window mem s snapshot_tid commit_tid
                    (size (mem tau) - 1) (S (S tau))) as [Hle Hres].
      split; [lia|]. intros Hsame.
      pose proof (Hsame tau ltac:(lia)) as Hs.
      rewrite Hs in Hinv, Hfast, Hres, Hsame, Hle |- *.
      rewrite (Hsame (S tau)) in Hfast by lia. rewrite Hinv, Hfast. simpl.
      apply Hres. intros x Hx. apply Hsame. lia.
  - split; [lia|]. intros Hsame.
    pose proof (Hsame tau ltac:(lia)) as Hs. rewrite Hs in Hinv.
    rewrite Hinv. reflexivity.
Qed.

(** Extra X20. Under the same protocol the answer of
    [stable_is_latest_version(t)] is the answer of [is_latest_version(t)] on
    the unlocked node of some instant of the call, unchanged until the call
    ends. *)
Theorem stable_is_latest_version_validated (mem : Shared.memory)
  (epoch : nat -> nat) (t : tid_t) (fuel tau tau' : nat) (ret : bool) :
  Shared.history mem epoch ->
  (forall x : nat, Z.of_nat (epoch x) < 2 ^ 59) ->
  Shared.stable_is_latest_version mem t fuel tau = Some (Ok ret, tau') ->
  exists tau0 : nat,
    (tau <= tau0 < tau')%nat
    /\ is_locked (mem tau0) = false
    /\ is_latest_version (mem tau0) t = Ok ret
    /\ forall x : nat, (tau0 <= x < tau')%nat -> mem x = mem tau0.
Proof.
  intros Hh Hbound. revert tau.
  induction fuel as [|fuel IH]; intros tau; simpl; [discriminate|].
  destruct (Shared.stable_version mem fuel tau) as [[v tau1]|] eqn:Hsv; [|discriminate].
  apply stable_version_Some in Hsv as (tau0 & -> & Hrange & Hv & Hfree & _).
  pose proof (shared_is_latest_version_window mem (mem tau0) t (S tau0)) as [Hlt Hres].
  destruct (Shared.is_latest_version mem t (S tau0)) as [[b|] tau2];
    simpl in *; try discriminate.
  destruct (Z.eqb_spec (hdr (mem tau2)) v) as [Hsame | Hdiff].
  - intros [= -> <-]. exists tau0.
    assert (forall x : nat, (tau0 <= x <= tau2)%nat -> mem x = mem tau0) as Hwin.
    { apply (seqlock_window mem epoch tau0 tau2 Hh).
      - lia.
      - specialize (Hbound tau2). lia.
      - unfold is_locked. rewrite Hv. exact Hfree.
      - congruence. }
    split; [lia|]. split; [unfold is_locked; rewrite Hv; exact Hfree|].
    split; [|intros x Hx; apply Hwin; lia].
    symmetry. apply Hres. intros x Hx. apply Hwin. lia.
  - intros Hrec. destruct (IH (S tau2) Hrec) as (tau0' & Hr' & Hrest).
    exists tau0'. split; [lia | exact Hrest].
Qed.

(** Extra X21. Under the same protocol the answer of
    [stable_is_snapshot_consistent] is the answer of
    [is_snapshot_consistent] on the unlocked node of some instant of the
    call, unchanged until the call ends. *)
Theorem stable_is_snapshot_consistent_validated (mem : Shared.memory)
  (epoch : nat -> nat) (snapshot_tid commit_tid : tid_t)
  (fuel tau tau' : nat) (ret : bool) :
  Shared.history mem epoch ->
  (forall x : nat, Z.of_nat (epoch x) < 2 ^ 59) ->
  Shared.stable_is_snapshot_consistent mem snapshot_tid commit_tid fuel tau
    = Some (Ok ret, tau') ->
  exists tau0 : nat,
    (tau <= tau0 < tau')%nat
    /\ is_locked (mem tau0) = false
    /\ is_snapshot_consistent (mem tau0) snapshot_tid commit_tid = Ok ret
    /\ forall x : nat, (tau0 <= x < tau')%nat -> mem x = mem tau0.
Proof.
  intros Hh Hbound. revert tau.
  induction fuel as [|fuel IH]; intros tau; simpl; [discriminate|].
  destruct (Shared.stable_version mem fuel tau) as [[v tau1]|] eqn:Hsv; [|discriminate].
  apply stable_version_Some in Hsv as (tau0 & -> & Hrange & Hv & Hfree & _).
  pose proof (shared_is_snapshot_consistent_window mem (mem tau0)
                snapshot_tid commit_tid (S tau0)) as [Hlt Hres].
  destruct (Shared.is_snapshot_consistent mem snapshot_tid commit_tid (S tau0))
    as [[b|] tau2]; simpl in *; try discriminate.
  destruct (Z.eqb_spec (hdr (mem tau2)) v) as [Hsame | Hdiff].
  - intros [= -> <-]. exists tau0.
    assert (forall x : nat, (tau0 <= x <= tau2)%nat -> mem x = mem tau0) as Hwin.
    { apply (seqlock_window mem epoch tau0 tau2 Hh).
      - lia.
      - specialize (Hbound tau2). lia.
      - unfold is_locked. rewrite Hv. exact Hfree.
      - congruence. }
    split; [lia|]. split; [unfold is_locked; rewrite Hv; exact Hfree|].
    split; [|intros x Hx; apply Hwin; lia].
    symmetry. apply Hres. intros x Hx. apply Hwin. lia.
  - intros Hrec. destruct (IH (S tau2) Hrec) as (tau0' & Hr' & Hrest).
    exists tau0'. split; [lia | exact Hrest].
Qed.

(** Extra X18. [stable_version()] never returns a locked header: it
    returns the first unlocked header word it reads, it returns as soon as
    the node is seen unlocked, and it keeps spinning while every read finds
    the node locked. *)
Theorem stable_version_spec (mem : Shared.memory) (fuel tau : nat) :
  (forall (v : Z) (tau1 : nat),
     Shared.stable_version mem fuel tau = Some (v, tau1) ->
     IsLocked v = false
     /\ (tau < tau1)%nat /\ hdr (mem (tau1 - 1)%nat) = v
     /\ forall x : nat, (tau <= x < tau1 - 1)%nat -> is_locked (mem x) = true)
  /\ (forall tau0 : nat,
        (tau <= tau0 < tau + fuel)%nat -> is_locked (mem tau0) = false ->
        exists (v : Z) (tau1 : nat),
          Shared.stable_version mem fuel tau = Some (v, tau1)
          /\ (tau1 <= S tau0)%nat)
  /\ ((forall x : nat, (tau <= x < tau + fuel)%nat -> is_locked (mem x) = true) ->
      Shared.stable_version mem fuel tau = None).
Proof.
  split; [|split].
  - intros v tau1 Hsv.
    apply stable_version_Some in Hsv as (tau0 & -> & Hrange & Hv & Hfree & Hspin).
    replace (S tau0 - 1)%nat with tau0 by lia.
    repeat split; try assumption; lia.
  - revert tau. induction fuel as [|fuel IH]; intros tau tau0 Hrange Hfree; [lia|].
    simpl. destruct (IsLocked (hdr (mem tau))) eqn:Hl.
    + assert (tau0 <> tau) as Hne.
      { intros ->. unfold is_locked in Hfree. congruence. }
      destruct (IH (S tau) tau0 ltac:(lia) Hfree) as (v & tau1 & Hsv & Hle).
      exists v, tau1. split; assumption.
    + exists (hdr (mem tau)), (S tau). split; [reflexivity | lia].
  - revert tau. induction fuel as [|fuel IH]; intros tau Hlocked; [reflexivity|].
    simpl. pose proof (Hlocked tau ltac:(lia)) as Hl. unfold is_locked in Hl.
    rewrite Hl. apply IH. intros x Hx. apply Hlocked. lia.
Qed.

(** Extra X22. On an unlocked node that no writer touches, [stable_read],
    [stable_is_latest_version] and [stable_is_snapshot_consistent] return
    after one iteration with the result of [record_at], [is_latest_version]
    and [is_snapshot_consistent]. *)
Theorem stable_operations_quiescent (mem : Shared.memory) (s : logical_node)
  (t snapshot_tid commit_tid : tid_t) (fuel tau : nat) :
  (forall x : nat, (tau <= x)%nat -> mem x = s) ->
  is_locked s = false ->
  (exists tau' : nat,
     Shared.stable_read mem t (S (S fuel)) tau = Some (record_at s t, tau'))
  /\ (exists tau' : nat,
        Shared.stable_is_latest_version mem t (S (S fuel)) tau
        = Some (is_latest_version s t, tau'))
  /\ (exists tau' : nat,
        Shared.stable_is_snapshot_consistent mem snapshot_tid commit_tid
          (S (S fuel)) tau
        = Some (is_snapshot_consistent s snapshot_tid commit_tid, tau')).
Proof.
  intros Hquiet Hfree.
  assert (Shared.stable_version mem (S fuel) tau = Some (hdr s, S tau)) as Hsv.
  { simpl. rewrite (Hquiet tau) by lia. unfold is_locked in Hfree.
    rewrite Hfree. reflexivity. }
  split; [|split].
  - cbn [Shared.stable_read]. rewrite Hsv.
    pose proof (shared_record_at_window mem s t (S tau)) as [Hlt Hres].
    destruct (Shared.record_at mem t (S tau)) as [res tau2]. simpl in *.
    rewrite <- Hres by (intros x Hx; apply Hquiet; lia).
    destruct res as [[found|]|]; try (eexists; reflexivity).
    unfold Shared.check_version. rewrite (Hquiet tau2) by lia.
    rewrite Z.eqb_refl. eexists. reflexivity.
  - cbn [Shared.stable_is_latest_version]. rewrite Hsv.
    pose proof (shared_is_latest_version_window mem s t (S tau)) as [Hlt Hres].
    destruct (Shared.is_latest_version mem t (S tau)) as [res tau2]. simpl in *.
    rewrite <- Hres by (intros x Hx; apply Hquiet; lia).
    destruct res as [b|]; try (eexists; reflexivity).
    unfold Shared.check_version. rewrite (Hquiet tau2) by lia.
    rewrite Z.eqb_refl. eexists. reflexivity.
  - cbn [Shared.stable_is_snapshot_consistent]. rewrite Hsv.
    pose proof (shared_is_snapshot_consistent_window mem s snapshot_tid commit_tid
                  (S tau)) as [Hlt Hres].
    destruct (Shared.is_snapshot_consistent mem snapshot_tid commit_tid (S tau))
      as [res tau2]. simpl in *.
    rewrite <- Hres by (intros x Hx; apply Hquiet; lia).
    destruct res as [b|]; try (eexists; reflexivity).
    unfold Shared.check_version. rewrite (Hquiet tau2) by lia.
    rewrite Z.eqb_refl. eexists. reflexivity.
Qed.

Lemma write_record_at_header (ln ln' : logical_node) (t : tid_t) (r : record_t) :
  in_range (hdr ln) ->
  write_record_at ln t r = Ok ln' ->
  is_locked ln = true
  /\ is_locked ln' = true
  /\ Version (hdr ln') = Version (hdr ln)
  /\ in_range (hdr ln').
Proof.
  intros Hr. unfold write_record_at.
  destruct (is_locked ln) eqn:Hlocked; [|discriminate]. cbn [INVARIANT bind].
  destruct ((0 <? size ln)%nat && (size ln <=? NVersions)%nat); [|discriminate].
  cbn [INVARIANT bind].
  destruct (at_ (versions ln) (size ln - 1) <? t); [|discriminate].
  cbn [INVARIANT bind].
  destruct (Nat.eqb_spec (size ln) NVersions) as [Hfull | Hroom].
  - pose proof (shift_down_hdr ln 0 (NVersions - 1)) as Hsame.
    remember (shift_down ln 0 (NVersions - 1)) as shifted eqn:Eshifted.
    clear Eshifted. intros [= <-]. unfold is_locked, set_slot in *. cbn [hdr].
    rewrite Hsame. split; [reflexivity|]. split; [exact Hlocked|].
    split; [reflexivity | exact Hr].
  - pose proof (size_never_exceeds_NVersions ln) as Hmax.
    rewrite set_size_ok by lia. intros [= <-].
    destruct (set_size_word_fields (hdr ln) (size ln + 1) Hr ltac:(lia))
      as (Hr' & _ & Hlk & Hver).
    unfold is_locked in *. cbn [set_hdr set_slot hdr].
    rewrite Hlk. split; [reflexivity|]. split; [exact Hlocked|].
    split; [exact Hver | exact Hr'].
Qed.

(** Extra X17. [lock()], [write_record_at(t, r)] and [unlock()] in a row
    follow the locking protocol with exactly one unlock: the node ends
    unlocked, with its stamp one larger modulo 2^59 and a header word that
    differs from the one before the cycle. *)
Theorem write_cycle_is_one_epoch (ln ln1 ln2 ln3 : logical_node)
  (t : tid_t) (r : record_t) :
  in_range (hdr ln) ->
  lock ln = Some ln1 ->
  write_record_at ln1 t r = Ok ln2 ->
  unlock ln2 = Ok ln3 ->
  writer_steps 1 ln ln3
  /\ is_locked ln3 = false
  /\ Version (hdr ln3) = (Version (hdr ln) + 1) mod 2 ^ 59
  /\ hdr ln3 <> hdr ln.
Proof.
  intros Hr Hlock Hwrite Hunlock.
  assert (writer_steps 0 ln ln1) as H1
    by (eapply steps_lock; [apply steps_refl | exact Hlock]).
  destruct (writer_steps_version 0 ln ln1 H1 Hr) as [Hr1 Hv1].
  destruct (write_record_at_header ln1 ln2 t r Hr1 Hwrite) as (Hl1 & Hl2 & Hv2 & Hr2).
  assert (writer_steps 0 ln ln2) as H2
    by (eapply steps_store; [exact H1 | assumption..]).
  assert (writer_steps 1 ln ln3) as H3
    by (eapply steps_unlock; [exact H2 | exact Hunlock]).
  destruct (writer_steps_version 1 ln ln3 H3 Hr) as [Hr3 Hv3].
  apply unlock_Ok in Hunlock as [_ ->].
  destruct (unlock_word_fields (hdr ln2) Hr2) as (_ & Hfree & _ & _).
  split; [exact H3|]. split; [exact Hfree|]. split; [exact Hv3|].
  intros Heq. cbn [set_hdr hdr] in *. rewrite Heq in Hv3.
  pose proof (Version_range (hdr ln)) as HV. change (Z.of_nat 1) with 1 in Hv3.
  revert Hv3 HV. generalize (Version (hdr ln)) as V. intros V Hv3 HV.
  Z.div_mod_to_equations. lia.
Qed.

(** ** A writer at work beside the readers *)

Lemma busy_history : Shared.history busy_memory busy_epoch.
Proof.
  split; [vm_compute; split; [discriminate | reflexivity]|].
  intros [|[|[|tau]]]; simpl; (split; [lia|]).
  - eapply steps_lock; [apply steps_refl | reflexivity].
  - eapply steps_store; [apply steps_refl | reflexivity..|].
    vm_compute. split; [discriminate | reflexivity].
  - eapply steps_unlock; [apply steps_refl | reflexivity].
  - destruct tau; apply steps_refl.
Qed.

Lemma busy_epoch_bound (x : nat) : Z.of_nat (busy_epoch x) < 2 ^ 59.
Proof. destruct x as [|[|[|x]]]; reflexivity. Qed.

Lemma stable_read_validated_witness :
  Shared.stable_read busy_memory 12 3 0 = Some (Ok (Some (10, 42)), 13%nat)
  /\ exists tau0 : nat,
       (0 <= tau0 < 13)%nat
       /\ is_locked (busy_memory tau0) = false
       /\ record_at (busy_memory tau0) 12 = Ok (Some (10, 42)).
Proof.
  assert (Shared.stable_read busy_memory 12 3 0 = Some (Ok (Some (10, 42)), 13%nat))
    as Hrun by reflexivity.
  split; [exact Hrun|].
  destruct (stable_read_validated busy_memory busy_epoch 12 3 0 13 10 42
              busy_history busy_epoch_bound Hrun)
    as (tau0 & Hrange & Hfree & Hrec & _).
  exists tau0. repeat split; try assumption; lia.
Defined.

Lemma stable_is_latest_version_validated_witness :
  Shared.stable_is_latest_version busy_memory 12 3 0 = Some (Ok false, 8%nat)
  /\ exists tau0 : nat,
       (0 <= tau0 < 8)%nat
       /\ is_locked (busy_memory tau0) = false
       /\ is_latest_version (busy_memory tau0) 12 = Ok false.
Proof.
  assert (Shared.stable_is_latest_version busy_memory 12 3 0 = Some (Ok false, 8%nat))
    as Hrun by reflexivity.
  split; [exact Hrun|].
  destruct (stable_is_latest_version_validated busy_memory busy_epoch 12 3 0 8 false
              busy_history busy_epoch_bound Hrun)
    as (tau0 & Hrange & Hfree & Hrec & _).
  exists tau0. repeat split; try assumption; lia.
Defined.

Lemma stable_is_snapshot_consistent_validated_witness :
  Shared.stable_is_snapshot_consistent busy_memory 12 20 3 0
    = Some (Ok false, 11%nat)
  /\ exists tau0 : nat,
       (0 <= tau0 < 11)%nat
       /\ is_locked (busy_memory tau0) = false
       /\ is_snapshot_consistent (busy_memory tau0) 12 20 = Ok false.
Proof.
  assert (Shared.stable_is_snapshot_consistent busy_memory 12 20 3 0
          = Some (Ok false, 11%nat)) as Hrun by reflexivity.
  split; [exact Hrun|].
  destruct (stable_is_snapshot_consistent_validated busy_memory busy_epoch 12 20 3 0 11
              false busy_history busy_epoch_bound Hrun)
    as (tau0 & Hrange & Hfree & Hrec & _).
  exists tau0. repeat split; try assumption; lia.
Defined.

Lemma stable_operations_quiescent_witness :
  exists tau' : nat,
    Shared.stable_read (fun _ : nat => unlocked_node) 7 2 0
    = Some (Ok (Some (5, 41)), tau').
Proof.
  destruct (stable_operations_quiescent (fun _ : nat => unlocked_node)
              unlocked_node 7 0 0 0 0) as [[tau' Hread] _].
  - intros x _. reflexivity.
  - reflexivity.
  - exists tau'. exact Hread.
Defined.

Lemma write_cycle_is_one_epoch_witness :
  writer_steps 1 unlocked_node committed_node
  /\ is_locked committed_node = false
  /\ Version (hdr committed_node) = 1.
Proof.
  destruct (write_cycle_is_one_epoch unlocked_node sample_node written_node
              committed_node 16 43) as (Hsteps & Hfree & Hver & _).
  - vm_compute. split; [discriminate | reflexivity].
  - reflexivity.
  - reflexivity.
  - reflexivity.
  - split; [exact Hsteps|]. split; [exact Hfree|]. rewrite Hver. reflexivity.
Defined.

Lemma unchanged_header_unchanged_node_witness :
  writer_steps 0 unlocked_node unlocked_node
  /\ (0%nat = 0%nat /\ unlocked_node = unlocked_node).
Proof.
  split; [apply steps_refl|].
  apply (unchanged_header_unchanged_node 0 unlocked_node unlocked_node).
  - apply steps_refl.
  - vm_compute. split; [discriminate | reflexivity].
  - reflexivity.
  - reflexivity.
  - reflexivity.
Defined.

(** ** Between the two stores of set_size *)

(** Extra X23. [set_size] stores to the header twice, and between the two
    stores the count field is 0 while the node is locked. [record_at] on the
    node of that instant fails [INVARIANT(n > 0)], and so does a
    [stable_read] whose [record_at] reads the header at that instant: the
    failure comes before [check_version] is reached. *)
Theorem set_size_intermediate_state (ln : logical_node) (n : nat) :
  in_range (hdr ln) ->
  is_locked ln = true ->
  (n <= NVersions)%nat ->
  set_size ln n = Ok (set_size_second_store (set_size_first_store ln) n)
  /\ size (set_size_first_store ln) = 0%nat
  /\ writer_steps 0 ln (set_size_first_store ln)
  /\ (forall t : tid_t,
        record_at (set_size_first_store ln) t = InvariantViolation)
  /\ forall (mem : Shared.memory) (t : tid_t) (fuel tau tau1 : nat) (v : Z),
       Shared.stable_version mem fuel tau = Some (v, tau1) ->
       mem tau1 = set_size_first_store ln ->
       Shared.stable_read mem t (S fuel) tau = Some (InvariantViolation, S tau1).
Proof.
  intros Hr Hlocked Hn.
  assert (hdr (set_size_first_store ln) = set_size_word (hdr ln) 0) as Hmid.
  { unfold set_size_first_store, set_size_word. cbn [set_hdr hdr].
    change (shl64 (Z.of_nat 0) HDR_SIZE_SHIFT) with 0.
    rewrite Z.lor_0_r. reflexivity. }
  destruct (set_size_word_fields (hdr ln) 0 Hr ltac:(lia)) as (Hr' & Hsz & Hlk & Hver).
  rewrite <- Hmid in Hr', Hsz, Hlk, Hver.
  assert (size (set_size_first_store ln) = 0%nat) as Hzero
    by (unfold size; rewrite Hsz; reflexivity).
  split; [rewrite set_size_ok by exact Hn; reflexivity|].
  split; [exact Hzero|]. split; [|split].
  - eapply steps_store; [apply steps_refl | exact Hlocked | | exact Hver | exact Hr'].
    unfold is_locked in *. rewrite Hlk. exact Hlocked.
  - intros t. unfold record_at. rewrite Hzero. reflexivity.
  - intros mem t fuel tau tau1 v Hsv Hmem.
    cbn [Shared.stable_read]. rewrite Hsv.
    unfold Shared.record_at. rewrite Hmem, Hzero. reflexivity.
Qed.

Lemma racy_history : Shared.history racy_memory (fun _ : nat => 0%nat).
Proof.
  split; [vm_compute; split; [discriminate | reflexivity]|].
  intros [|tau]; simpl; (split; [lia|]); [|apply steps_refl].
  eapply steps_store;
    [eapply steps_lock; [apply steps_refl | reflexivity] | reflexivity..|].
  vm_compute. split; [discriminate | reflexivity].
Qed.

Lemma set_size_intermediate_state_witness :
  in_range (hdr sample_node)
  /\ is_locked sample_node = true
  /\ Shared.history racy_memory (fun _ : nat => 0%nat)
  /\ writer_steps 0 sample_node (set_size_first_store sample_node)
  /\ record_at unlocked_node 7 = Ok (Some (5, 41))
  /\ Shared.stable_read racy_memory 7 2 0 = Some (InvariantViolation, 2%nat).
Proof.
  assert (in_range (hdr sample_node)) as Hr
    by (vm_compute; split; [discriminate | reflexivity]).
  destruct (set_size_intermediate_state sample_node 4 Hr eq_refl)
    as (_ & _ & Hstep & _ & Hrace).
  - unfold NVersions. lia.
  - split; [exact Hr|]. split; [reflexivity|]. split; [exact racy_history|].
    split; [exact Hstep|].
    split; [reflexivity|].
    apply (Hrace racy_memory 7 1%nat 0%nat 1%nat 6); reflexivity.
Defined.
